(** * spfpm: the demonstration harness of the Simple Python Fixed-Point Module

    The repository file [demo.py] drives the module [FixedPoint].  This
    development embeds the harness ([basicDemo], [overflowDemo],
    [speedDemo], [piPlot], [piAccuracyPlot], [main]) as monadic programs
    over an explicit engine state, and the part of the [FixedPoint] module
    the harness calls as a library of scaled-integer operations. *)

From Stdlib Require Import ZArith List String Lia Bool.
From stdpp Require Import base option gmap strings.
Import ListNotations.

Local Open Scope string_scope.
Local Open Scope list_scope.
Local Open Scope Z_scope.

(** ** Errors of the engine and exceptions of the harness *)

(** Modelled from the spec: the error taxonomy of the module FixedPoint,
    which [demo.py] imports and whose source is missing.  The harness
    names only [FixedPoint.FXoverflowError]; the three other kinds carry
    the names of the specification's taxonomy. *)
Inductive FXerror : Type :=
  | FXoverflowError
  | DomainError
  | DivisionByZero
  | FamilyMismatch.

Definition FXerror_eqb (a b : FXerror) : bool :=
  match a, b with
  | FXoverflowError, FXoverflowError => true
  | DomainError, DomainError => true
  | DivisionByZero, DivisionByZero => true
  | FamilyMismatch, FamilyMismatch => true
  | _, _ => false
  end.

(** What an engine call gives back: a value or one of the four errors. *)
Inductive result (A : Type) : Type :=
  | Ok (a : A)
  | Err (e : FXerror).
Arguments Ok {A} a.
Arguments Err {A} e.

Definition rbind {A B : Type} (r : result A) (k : A -> result B) : result B :=
  match r with
  | Ok a => k a
  | Err e => Err e
  end.

(** ** The engine: families, numbers, the overflow guard

    Everything in [FixedPoint] stands for the imported module of that
    name.  Its source is missing, so its definitions follow the
    specification: the data model, the scaled-integer arithmetic with its
    overflow guard, the family constants and their cache. *)

Module FixedPoint.

(** Modelled from the spec: a Family is a precision configuration.  The
    object identity [fam_id] and the two bit widths never change; the
    constants cache, the one mutable part, lives in the engine state under
    the family's identity. *)
Record Family : Type := mkFamily {
  fam_id : nat;
  resolution : Z;
  integerBits : Z
}.

(** Modelled from the spec: a Number is a scaled integer bound to a Family. *)
Record Number : Type := mkNumber {
  scaledValue : Z;
  family : Family
}.

Definition Family_eqb (f g : Family) : bool :=
  Nat.eqb (fam_id f) (fam_id g)
  && Z.eqb (resolution f) (resolution g)
  && Z.eqb (integerBits f) (integerBits g).

(** The three family-wide constants. *)
Inductive constName : Type := Cpi | Cexp1 | Clog2.

Definition constKey (c : constName) : string :=
  match c with
  | Cpi => "pi"
  | Cexp1 => "exp1"
  | Clog2 => "log2"
  end.

(** Modelled from the spec: the mutable state of the engine.  [caches]
    holds, per family identity, the constants cache (name to scaled value);
    [computations] counts how often a constant was computed rather than
    read back (the call-count instrumentation of the caching property). *)
Record EngineState : Type := mkState {
  next_id : nat;
  caches : gmap nat (gmap string Z);
  computations : nat
}.

Definition initial_state : EngineState :=
  {| next_id := 0; caches := ∅; computations := 0 |}.

(** A literal handed to the engine: a Python int, or a Python float given
    exactly as the dyadic rational [m * 2^e] it denotes. *)
Inductive literal : Type :=
  | VInt (z : Z)
  | VFloat (m e : Z).

(** What [FXnum(val, family)] accepts as [val]. *)
Inductive value : Type :=
  | VLit (l : literal)
  | VNum (x : Number).

(** Number of bits of a magnitude: 0 for 0, and [log2 n + 1] above. *)
Definition bit_length (n : Z) : Z :=
  if Z.abs n =? 0 then 0 else Z.log2 (Z.abs n) + 1.

(** Modelled from the spec: the Overflow Guard.  The result's bit length
    is compared against [resolution + integerBits]; one bit is the sign. *)
Definition in_range (f : Family) (sv : Z) : bool :=
  bit_length sv <? resolution f + integerBits f.

Definition validate (f : Family) (sv : Z) : result Z :=
  if in_range f sv then Ok sv else Err FXoverflowError.

Definition checked (f : Family) (sv : Z) : result Number :=
  rbind (validate f sv) (fun v => Ok (mkNumber v f)).

(** Modelled from the spec: a literal is scaled into the family's
    representation; the fraction of a float that does not fit is dropped. *)
Definition scale_literal (res : Z) (l : literal) : Z :=
  match l with
  | VInt z => Z.shiftl z res
  | VFloat m e =>
      if 0 <=? e + res then m * 2 ^ (e + res)
      else Z.quot m (2 ^ (- (e + res)))
  end.

(** Modelled from the spec: [FXnum(x, family)] for a Number [x] of
    another family, missing with the module.  The scaled value is the
    value times [2^resolution], so keeping the value shifts the scaled
    value by the difference of the resolutions. *)
Definition rescale (from to : Z) (sv : Z) : Z := Z.shiftl sv (to - from).

Definition scale_value (f : Family) (v : value) : Z :=
  match v with
  | VLit l => scale_literal (resolution f) l
  | VNum x => rescale (resolution (family x)) (resolution f) (scaledValue x)
  end.

Definition FXnum (v : value) (f : Family) : result Number :=
  checked f (scale_value f v).

(** Modelled from the spec: exact addition and subtraction, the product
    rescaled by [resolution] bits and rounded to nearest, the quotient of
    the dividend scaled up by [resolution] bits and rounded to nearest. *)
Definition add_raw (a b : Z) : Z := a + b.
Definition sub_raw (a b : Z) : Z := a - b.
Definition mul_raw (res a b : Z) : Z :=
  Z.shiftr (a * b + 2 ^ (res - 1)) res.
Definition div_raw (res a b : Z) : Z :=
  (2 * Z.shiftl a res + b) / (2 * b).

Inductive binop : Type := Add | Sub | Mul | Div.
Inductive unop : Type := Sqrt | Exp | Log | Atan | Abs.

Definition apply_binop (op : binop) (f : Family) (a b : Z) : result Number :=
  match op with
  | Add => checked f (add_raw a b)
  | Sub => checked f (sub_raw a b)
  | Mul => checked f (mul_raw (resolution f) a b)
  | Div => if b =? 0 then Err DivisionByZero
           else checked f (div_raw (resolution f) a b)
  end.

(** Modelled from the spec: the other operand of a binary operation is a
    Number of the same family, or a literal that is promoted into the
    family of the Number it meets; a Number of another family is a
    FamilyMismatch. *)
Inductive operand : Type :=
  | ONum (y : Number)
  | OLit (l : literal).

Definition promote (f : Family) (b : operand) : result Number :=
  match b with
  | ONum y => if Family_eqb f (family y) then Ok y else Err FamilyMismatch
  | OLit l => FXnum (VLit l) f
  end.

(** [a op b] with [a] a Number. *)
Definition binary (op : binop) (a : Number) (b : operand) : result Number :=
  rbind (promote (family a) b) (fun y =>
    apply_binop op (family a) (scaledValue a) (scaledValue y)).

(** [l op b] with [l] a literal on the left (Python's reflected operator). *)
Definition rbinary (op : binop) (l : literal) (b : Number) : result Number :=
  rbind (FXnum (VLit l) (family b)) (fun x =>
    apply_binop op (family b) (scaledValue x) (scaledValue b)).

(** Modelled from the spec: the numerical part of the engine, kept apart
    from the Number interface.  A solver works on scaled integers at the
    family's resolution and may fail; [const_solver c p] is constant [c]
    scaled by [2^p].  [default_integerBits] is the integer width taken when
    [FXfamily] is called with a resolution alone, [guardBits] the extra
    precision at which a constant is computed before it is rounded down. *)
Class Solvers : Type := mkSolvers {
  default_integerBits : Z;
  guardBits : Z;
  sqrt_solver : Family -> Z -> result Z;
  exp_solver : Family -> Z -> result Z;
  log_solver : Family -> Z -> Z -> result Z;
  atan_solver : Family -> Z -> result Z;
  const_solver : constName -> Z -> Z
}.

Section Engine.
Context {S : Solvers}.

(** Modelled from the spec: [FXfamily(resolution)] and
    [FXfamily(resolution, integerBits)].  Every call makes a new family
    object with an empty constants cache. *)
Definition FXfamily (res : Z) (ib : option Z) (s : EngineState)
  : Family * EngineState :=
  let f := {| fam_id := next_id s;
              resolution := res;
              integerBits := from_option id default_integerBits ib |} in
  (f, {| next_id := Datatypes.S (next_id s);
         caches := <[next_id s := ∅]> (caches s);
         computations := computations s |}).

Definition cache_of (f : Family) (s : EngineState) : gmap string Z :=
  default ∅ (caches s !! fam_id f).

(** Modelled from the spec: [constant(name)].  A cached value is returned
    as it is; otherwise the constant is computed with [guardBits] extra
    bits, rounded down to the family's resolution, range-checked, stored
    and returned. *)
Definition constant (c : constName) (f : Family) (s : EngineState)
  : result Number * EngineState :=
  match cache_of f s !! constKey c with
  | Some v => (Ok (mkNumber v f), s)
  | None =>
      let v := Z.shiftr (const_solver c (resolution f + guardBits)) guardBits in
      let s1 := {| next_id := next_id s;
                   caches := caches s;
                   computations := Datatypes.S (computations s) |} in
      match validate f v with
      | Ok _ =>
          (Ok (mkNumber v f),
           {| next_id := next_id s1;
              caches := <[fam_id f := <[constKey c := v]> (cache_of f s)]>
                          (caches s1);
              computations := computations s1 |})
      | Err e => (Err e, s1)
      end
  end.

(** Modelled from the spec: the transcendental entry points and the
    absolute value.  Each result stays under the operand's family and is
    range-checked; the logarithm reads the family's cached [log2]. *)
Definition unary (op : unop) (x : Number) (s : EngineState)
  : result Number * EngineState :=
  let f := family x in
  match op with
  | Sqrt => (rbind (sqrt_solver f (scaledValue x)) (checked f), s)
  | Exp => (rbind (exp_solver f (scaledValue x)) (checked f), s)
  | Atan => (rbind (atan_solver f (scaledValue x)) (checked f), s)
  | Abs => (Ok (mkNumber (Z.abs (scaledValue x)) f), s)
  | Log =>
      match constant Clog2 f s with
      | (Ok ln2, s') =>
          (rbind (log_solver f (scaledValue ln2) (scaledValue x)) (checked f),
           s')
      | (Err e, s') => (Err e, s')
      end
  end.

End Engine.

End FixedPoint.

(** ** The harness monad

    A demo threads the engine state, may raise, and leaves a trace: what it
    printed, which engine entry points it called with which arguments,
    which of these calls raised, and which plots it drew.  The unbounded [while True] loop of [overflowDemo]
    runs on fuel; [OutOfFuel] stands for a loop that is still running. *)

Module Demo.
Import FixedPoint.

(** Exceptions a demo can end with. *)
Inductive exn : Type :=
  | FXexn (e : FXerror)
  | KeyError (key : string).

(** One piece of a printed line. *)
Inductive piece : Type :=
  | PStr (s : string)
  | PInt (z : Z)
  | PNum (x : Number)       (* str(x) *)
  | PFloat (x : Number)     (* float(x), formatted *)
  | PTiming.                (* a figure derived from the clock readings *)

Inductive event : Type :=
  | EvPrint (line : list piece)
  | EvFamily (res : Z) (ib : option Z)
  | EvNum (v : value) (f : Family)
  | EvUnary (op : unop) (x : Number)
  | EvBinary (op : binop) (a : Number) (b : operand)
  | EvRBinary (op : binop) (l : literal) (b : Number)
  | EvConst (c : constName) (f : Family)
  | EvRaised (e : FXerror)   (* the call just made raised [e] *)
  | EvClock
  | EvPlot (label : string) (points : list (Z * Number))
  | EvShow.

Inductive outcome (A : Type) : Type :=
  | Return (a : A)
  | Raise (e : exn)
  | OutOfFuel.
Arguments Return {A} a.
Arguments Raise {A} e.
Arguments OutOfFuel {A}.

Definition M (A : Type) : Type :=
  EngineState -> outcome A * list event * EngineState.

Definition ret {A : Type} (a : A) : M A := fun s => (Return a, [], s).

Definition bind {A B : Type} (m : M A) (k : A -> M B) : M B :=
  fun s =>
    match m s with
    | (Return a, t1, s1) =>
        match k a s1 with
        | (r, t2, s2) => (r, (t1 ++ t2)%list, s2)
        end
    | (Raise e, t1, s1) => (Raise e, t1, s1)
    | (OutOfFuel, t1, s1) => (OutOfFuel, t1, s1)
    end.

Notation "x <- m ;; k" := (bind m (fun x => k))
  (at level 63, m at next level, right associativity).
Notation "m ;;; k" := (bind m (fun _ => k))
  (at level 63, right associativity).

Definition emit (e : event) : M unit := fun s => (Return tt, [e], s).
Definition raise {A : Type} (e : exn) : M A := fun s => (Raise e, [], s).
Definition raised {A : Type} (e : FXerror) : M A :=
  fun s => (Raise (FXexn e), [EvRaised e], s).
Definition out_of_fuel {A : Type} : M A := fun s => (OutOfFuel, [], s).

Definition of_result {A : Type} (r : result A) : M A :=
  match r with
  | Ok a => ret a
  | Err e => raised e
  end.

Definition of_engine {A : Type}
  (op : EngineState -> result A * EngineState) : M A :=
  fun s => match op s with
           | (Ok a, s') => (Return a, [], s')
           | (Err e, s') => (Raise (FXexn e), [EvRaised e], s')
           end.

(** [try: body / except FixedPoint.FXoverflowError: ...]: [None] tells
    the handler was entered; every other exception goes on. *)
Definition try_except_overflow {A : Type} (body : M A) : M (option A) :=
  fun s =>
    match body s with
    | (Return a, t, s') => (Return (Some a), t, s')
    | (Raise (FXexn FXoverflowError), t, s') => (Return None, t, s')
    | (Raise e, t, s') => (Raise e, t, s')
    | (OutOfFuel, t, s') => (OutOfFuel, t, s')
    end.

(** [for v in l: body(v)] *)
Fixpoint for_each {A : Type} (l : list A) (body : A -> M unit) : M unit :=
  match l with
  | [] => ret tt
  | v :: l' => body v ;;; for_each l' body
  end.

(** [for i in range(n): x = body(x)] *)
Fixpoint iterate {A : Type} (n : nat) (body : A -> M A) (x : A) : M A :=
  match n with
  | O => ret x
  | Datatypes.S n' => x' <- body x ;; iterate n' body x'
  end.

(** [for v in l: acc.append(body(v))] *)
Fixpoint collect {A B : Type} (l : list A) (body : A -> M B) : M (list B) :=
  match l with
  | [] => ret []
  | v :: l' => b <- body v ;; bs <- collect l' body ;; ret (b :: bs)
  end.

(** Python's [range(start, stop, step)] for a positive step. *)
Definition py_range (start stop step : Z) : list Z :=
  map (fun i => start + step * Z.of_nat i)
      (seq 0 (Z.to_nat ((stop - start + step - 1) / step))).

Definition print (line : list piece) : M unit := emit (EvPrint line).

Section Harness.
Context {S : Solvers}.

(** The calls into the FixedPoint module, each leaving its event. *)
Definition call_FXfamily (res : Z) (ib : option Z) : M Family :=
  emit (EvFamily res ib) ;;;
  (fun s => let (f, s') := FXfamily res ib s in (Return f, [], s')).

Definition call_FXnum (v : value) (f : Family) : M Number :=
  emit (EvNum v f) ;;; of_result (FXnum v f).

Definition call_unary (op : unop) (x : Number) : M Number :=
  emit (EvUnary op x) ;;; of_engine (unary op x).

Definition call_binary (op : binop) (a : Number) (b : operand) : M Number :=
  emit (EvBinary op a b) ;;; of_result (binary op a b).

Definition call_rbinary (op : binop) (l : literal) (b : Number) : M Number :=
  emit (EvRBinary op l b) ;;; of_result (rbinary op l b).

Definition call_constant (c : constName) (f : Family) : M Number :=
  emit (EvConst c f) ;;; of_engine (constant c f).

(** [basicDemo]: roots and exponents at various accuracies. *)
Definition basicDemo_step (resolution : Z) : M unit :=
  family <- call_FXfamily resolution None ;;
  let val := 2 in
  print [PStr "=== "; PInt resolution; PStr " bits ==="] ;;;
  two <- call_FXnum (VLit (VInt val)) family ;;
  rt <- call_unary Sqrt two ;;
  print [PStr "sqrt("; PInt val; PStr ")~ "; PNum rt] ;;;
  sq <- call_binary Mul rt (ONum rt) ;;
  print [PStr "sqrt("; PInt val; PStr ")^2 ~ "; PNum sq] ;;;
  e <- call_constant Cexp1 family ;;
  print [PStr "exp(1) ~ "; PNum e] ;;;
  print [].

Definition basicDemo : M unit :=
  for_each [8; 32; 80; 274] basicDemo_step.

(** [overflowDemo]: how finite range limits the exponential. *)
Definition step : literal := VFloat 3602879701896397 (-55).   (* 0.1 *)

Definition overflow_report (intsize : Z) (x : Number) : list piece :=
  [PInt intsize; PStr "-bit integer part: exp(x) overflows near x=";
   PFloat x].

Fixpoint overflow_loop (fuel : nat) (intsize : Z) (x : Number) : M unit :=
  match fuel with
  | O => out_of_fuel
  | Datatypes.S fuel' =>
      r <- try_except_overflow (call_unary Exp x) ;;
      match r with
      | None => print (overflow_report intsize x)          (* break *)
      | Some ex =>
          x' <- call_binary Add x (OLit step) ;;
          overflow_loop fuel' intsize x'
      end
  end.

Definition overflowDemo_step (fuel : nat) (res intsize : Z) : M unit :=
  family <- call_FXfamily res (Some intsize) ;;
  x <- call_FXnum (VLit (VFloat 0 0)) family ;;
  overflow_loop fuel intsize x.

Definition overflowDemo (fuel : nat) : M unit :=
  let res := 20 in
  print [PStr "=== "; PInt res; PStr "-bit fractional part ==="] ;;;
  for_each [4; 8; 16; 32] (overflowDemo_step fuel res) ;;;
  print [].

(** [speedDemo]: indicative speed of the arithmetic.  A reading of
    [time.clock()] is an event without a value, and the figures printed
    from the readings are opaque pieces. *)
Definition logistic_step (lmb one x : Number) : M Number :=
  lx <- call_binary Mul lmb (ONum x) ;;
  d <- call_binary Sub one (ONum x) ;;
  call_binary Mul lx (ONum d).

Definition speedDemo_arith (rc : Z * Z) : M unit :=
  let (res, count) := rc in
  fam <- call_FXfamily res None ;;
  x <- call_FXnum (VLit (VFloat 1 (-1))) fam ;;                  (* 0.5 *)
  lmb <- call_FXnum (VLit (VFloat 8106479329266893 (-51))) fam ;; (* 3.6 *)
  one <- call_FXnum (VLit (VFloat 1 0)) fam ;;                   (* 1.0 *)
  emit EvClock ;;;
  x <- iterate (Z.to_nat count) (logistic_step lmb one) x ;;
  emit EvClock ;;;
  let ops := count * 3 in
  print [PInt ops; PStr " "; PInt res;
         PStr "-bit arithmetic operations in "; PTiming; PStr "s ~ ";
         PTiming; PStr " FLOPS"].

Definition speedDemo_sqrt (rc : Z * Z) : M unit :=
  let (res, count) := rc in
  fam <- call_FXfamily res (Some 4) ;;
  x <- call_FXnum (VLit (VInt 2)) fam ;;
  emit EvClock ;;;
  for_each (py_range 0 count 1) (fun i =>
    y <- call_unary Sqrt x ;; ret tt) ;;;
  emit EvClock ;;;
  print [PInt count; PStr " "; PInt res; PStr "-bit square-roots in ";
         PTiming; PStr "s ~ "; PTiming; PStr "/ms"].

Definition speedDemo : M unit :=
  print [PStr "=== speed test ==="] ;;;
  for_each [(16, 10000); (32, 10000); (64, 10000); (128, 10000);
            (256, 10000); (512, 10000)] speedDemo_arith ;;;
  for_each [(4, 10000); (8, 10000); (12, 10000); (24, 10000); (48, 10000);
            (128, 10000); (512, 10000)] speedDemo_sqrt.

(** [piPlot]: approximations to pi against the resolution.  Of the
    plotting front end only the [plt.plot] and [plt.show] calls are kept. *)
Definition piPlot_point (res : Z) : M (Z * Number) :=
  fam <- call_FXfamily res None ;;
  one <- call_FXnum (VLit (VInt 1)) fam ;;
  a <- call_unary Atan one ;;
  val <- call_rbinary Mul (VInt 4) a ;;
  ret (res, val).

Definition piPlot : M unit :=
  let b_min := 8 in
  let b_max := 25 in
  fam_true <- call_FXfamily (b_max + 40) None ;;
  pi_true <- call_constant Cpi fam_true ;;
  pipoints <- collect (py_range b_min (b_max + 1) 1) piPlot_point ;;
  let truepoints := [(b_min, pi_true); (b_max, pi_true)] in
  for_each [(truepoints, "--"); (pipoints, "-")]
    (fun '(arr, style) => emit (EvPlot style arr)) ;;;
  emit EvShow.

(** [piAccuracyPlot]: fractional bits lost to accumulated roundoff. *)
Definition lostbits (x x_acc : Number) : M Number :=
  let fam_acc := family x_acc in
  xa <- call_FXnum (VNum x) fam_acc ;;
  eps <- call_binary Sub xa (ONum x_acc) ;;
  a <- call_unary Abs eps ;;
  l <- call_unary Log a ;;
  ln2 <- call_constant Clog2 fam_acc ;;
  q <- call_binary Div l (ONum ln2) ;;
  call_binary Add q (OLit (VInt (resolution (family x)))).

Definition piAccuracy_point (bits : Z) : M (Z * Number * Number) :=
  fam_acc <- call_FXfamily (bits + 40) None ;;
  fam <- call_FXfamily bits None ;;
  pi_true <- call_constant Cpi fam_acc ;;
  pi_family <- call_constant Cpi fam ;;
  one <- call_FXnum (VLit (VInt 1)) fam ;;
  a <- call_unary Atan one ;;
  atan <- call_rbinary Mul (VInt 4) a ;;
  l1 <- lostbits atan pi_true ;;
  l2 <- lostbits pi_family pi_true ;;
  ret (bits, l1, l2).

Definition piAccuracyPlot : M unit :=
  losses <- collect (py_range 4 500 4) piAccuracy_point ;;
  emit (EvPlot "$4 tan^{-1} 1$"
          (map (fun '(bits, l1, _) => (bits, l1)) losses)) ;;;
  emit (EvPlot "$\pi_{family}$"
          (map (fun '(bits, _, l2) => (bits, l2)) losses)) ;;;
  emit EvShow.

End Harness.

(** ** Demo selection *)


(** An [OrderedDict] with string keys: an association list in insertion
    order.  [od_set] is [d[k] = v], [od_get] is [d[k]]. *)
Fixpoint od_set {V : Type} (k : string) (v : V) (d : list (string * V))
  : list (string * V) :=
  match d with
  | [] => [(k, v)]
  | (k', v') :: d' =>
      if String.eqb k k' then (k, v) :: d' else (k', v') :: od_set k v d'
  end.

Fixpoint od_get {V : Type} (k : string) (d : list (string * V)) : option V :=
  match d with
  | [] => None
  | (k', v') :: d' => if String.eqb k k' then Some v' else od_get k d'
  end.

Definition od_keys {V : Type} (d : list (string * V)) : list string :=
  map fst d.

(** The parsed command line: the [--all] flag and the demo names. *)
Record Namespace : Type := mkNamespace {
  all : bool;
  demos : list string
}.

Definition is_empty {A : Type} (l : list A) : bool :=
  match l with
  | [] => true
  | _ => false
  end.

(** The body of [main] after the registry is built. *)
Definition run_demos (registry : list (string * M unit)) (args : Namespace)
  : M unit :=
  let names :=
    if all args || is_empty (demos args) then od_keys registry
    else demos args in
  for_each names (fun demoname =>
    match od_get demoname registry with
    | Some demo => demo
    | None => raise (KeyError demoname)
    end).

Section Main.
Context {S : Solvers}.

Definition registry (have_matplotlib : bool) (fuel : nat)
  : list (string * M unit) :=
  let demos := [("basic", basicDemo);
                ("overflow", overflowDemo fuel);
                ("speed", speedDemo)] in
  if have_matplotlib
  then od_set "piaccplot" piAccuracyPlot (od_set "piplot" piPlot demos)
  else demos.

Definition main (have_matplotlib : bool) (fuel : nat) (args : Namespace)
  : M unit :=
  run_demos (registry have_matplotlib fuel) args.

End Main.

End Demo.

(** ** The transcendental solvers *)

Module Solver.
Import FixedPoint.

(** 1.0 at [res] fractional bits. *)
Definition one (res : Z) : Z := Z.shiftl 1 res.

(** Modelled from the spec: square root by Newton-Raphson,
    [x' = (x + v/x) / 2] on scaled integers, from a seed above the root
    taken from the bit length; negative inputs are a DomainError.  The
    iteration stops when it no longer decreases. *)
Fixpoint newton (fuel : nat) (n x : Z) : Z :=
  match fuel with
  | O => x
  | Datatypes.S fuel' =>
      let x' := (x + n / x) / 2 in
      if x' <? x then newton fuel' n x' else x
  end.

Definition isqrt (n : Z) : Z :=
  if n <=? 0 then 0
  else newton (Z.to_nat (Z.log2 n + 2)) n (2 ^ (Z.log2 n / 2 + 1)).

Definition sqrt_scaled (res sv : Z) : Z := isqrt (Z.shiftl sv res).

Definition sqrt (f : Family) (sv : Z) : result Z :=
  if sv <? 0 then Err DomainError else Ok (sqrt_scaled (resolution f) sv).

(** Modelled from the spec: the exponential.  The argument is halved
    until it lies inside (-1, 1), the Taylor series is summed until the
    next term vanishes at this resolution, and the sum is squared once per
    halving, with the overflow guard after each squaring. *)
Fixpoint halve (fuel : nat) (res x : Z) (k : nat) : Z * nat :=
  match fuel with
  | O => (x, k)
  | Datatypes.S fuel' =>
      if Z.abs x <? one res then (x, k)
      else halve fuel' res (Z.shiftr x 1) (Datatypes.S k)
  end.

Fixpoint exp_series (fuel : nat) (res x n term acc : Z) : Z :=
  match fuel with
  | O => acc
  | Datatypes.S fuel' =>
      let term' := Z.quot (mul_raw res term x) n in
      if term' =? 0 then acc
      else exp_series fuel' res x (n + 1) term' (acc + term')
  end.

Definition exp_taylor (res x : Z) : Z :=
  exp_series (Z.to_nat (res + 8)) res x 1 (one res) (one res).

Fixpoint square_back (k : nat) (f : Family) (y : Z) : result Z :=
  match k with
  | O => Ok y
  | Datatypes.S k' =>
      rbind (validate f (mul_raw (resolution f) y y)) (square_back k' f)
  end.

Definition exp (f : Family) (sv : Z) : result Z :=
  let res := resolution f in
  let (x, k) := halve (Z.to_nat (bit_length sv)) res sv O in
  rbind (validate f (exp_taylor res x)) (square_back k f).

(** Modelled from the spec: the arctangent.  Above the threshold 1/4 the
    argument is reduced by the half-angle identity
    [atan x = 2 atan (x / (1 + sqrt (1 + x^2)))]; below it the series
    [x - x^3/3 + x^5/5 - ...] is summed until the next term vanishes. *)
Fixpoint odd_series (fuel : nat) (res x2 n pow acc : Z) : Z :=
  match fuel with
  | O => acc
  | Datatypes.S fuel' =>
      let pow' := mul_raw res pow x2 in
      let term := Z.quot pow' n in
      if term =? 0 then acc
      else odd_series fuel' res x2 (n + 2) pow' (acc + term)
  end.

Definition atan_series (res x : Z) : Z :=
  odd_series (Z.to_nat (res + 8)) res (- mul_raw res x x) 3 x x.

Definition half_angle (res x : Z) : Z :=
  div_raw res x (one res + sqrt_scaled res (one res + mul_raw res x x)).

Fixpoint atan_reduce (fuel : nat) (res x : Z) : Z :=
  match fuel with
  | O => atan_series res x
  | Datatypes.S fuel' =>
      if Z.abs x <=? Z.shiftr (one res) 2 then atan_series res x
      else 2 * atan_reduce fuel' res (half_angle res x)
  end.

Definition atan (f : Family) (sv : Z) : result Z :=
  let res := resolution f in
  Ok (atan_reduce (Z.to_nat (bit_length sv)) res sv).

(** Modelled from the spec: the natural logarithm.  Powers of two are
    divided out until the argument lies in [1, 2), each one adding the
    family's [log2]; the rest is [2 atanh ((m - 1) / (m + 1))], summed as
    [y + y^3/3 + y^5/5 + ...].  Zero and negative inputs are a
    DomainError. *)
Definition atanh_series (res y : Z) : Z :=
  odd_series (Z.to_nat (res + 8)) res (mul_raw res y y) 3 y y.

Definition log (f : Family) (ln2 sv : Z) : result Z :=
  let res := resolution f in
  if sv <=? 0 then Err DomainError
  else
    let k := Z.log2 sv - res in
    let m := Z.shiftr sv k in
    let y := div_raw res (m - one res) (m + one res) in
    Ok (k * ln2 + 2 * atanh_series res y).

(** Modelled from the spec: the family constants at [p] fractional bits:
    pi by Machin's arctangent sum [16 atan (1/5) - 4 atan (1/239)], e by
    its direct series, ln 2 as [2 atanh (1/3)]. *)
Definition constant_at (c : constName) (p : Z) : Z :=
  match c with
  | Cpi => 16 * atan_series p (one p / 5) - 4 * atan_series p (one p / 239)
  | Cexp1 => exp_series (Z.to_nat (p + 8)) p (one p) 1 (one p) (one p)
  | Clog2 => 2 * atanh_series p (one p / 3)
  end.

#[export] Instance solvers : Solvers := {|
  default_integerBits := 64;
  guardBits := 16;
  sqrt_solver := sqrt;
  exp_solver := exp;
  log_solver := log;
  atan_solver := atan;
  const_solver := constant_at
|}.

End Solver.


(** ** Observations on a run *)

Module Run.
Import FixedPoint Demo.

Definition outcome_of {A : Type} (r : outcome A * list event * EngineState)
  : outcome A := fst (fst r).
Definition trace_of {A : Type} (r : outcome A * list event * EngineState)
  : list event := snd (fst r).
Definition state_of {A : Type} (r : outcome A * list event * EngineState)
  : EngineState := snd r.

(** [holds P Q m]: whatever the state [m] starts in, every event it leaves
    satisfies [P], and a value it returns satisfies [Q]. *)
Definition holds {A : Type} (P : event -> Prop) (Q : A -> Prop) (m : M A)
  : Prop :=
  forall s : EngineState,
    Forall P (trace_of (m s))
    /\ forall a : A, outcome_of (m s) = Return a -> Q a.

(** A binary operation on two Numbers works inside one family; a literal
    operand is promoted and so never mixes families. *)
Definition same_family_event (e : event) : Prop :=
  match e with
  | EvBinary _ a (ONum y) => family y = family a
  | _ => True
  end.

(** Every binary operation works inside the family [f]. *)
Definition within_family (f : Family) (e : event) : Prop :=
  match e with
  | EvBinary _ a b =>
      family a = f
      /\ match b with
         | ONum y => family y = f
         | OLit _ => True
         end
  | _ => True
  end.

(** [settled t]: every raise in [t] is an overflow of [x.exp()], announced
    by the call before it and answered by the report of the overflow point
    after it. *)
Inductive settled : list event -> Prop :=
  | settled_nil : settled []
  | settled_cons (e : event) (t : list event) :
      (forall k : FXerror, e <> EvRaised k) ->
      settled t -> settled (e :: t)
  | settled_caught (x : Number) (intsize : Z) (t : list event) :
      settled t ->
      settled (EvUnary Exp x :: EvRaised FXoverflowError
               :: EvPrint (overflow_report intsize x) :: t).

(** What a run may look like: an engine error that ends it is the last
    event of the trace, and every raise before it is settled. *)
Definition uncaught {A : Type} (r : outcome A) (t : list event) : Prop :=
  match r with
  | Raise (FXexn e) => exists t0, t = (t0 ++ [EvRaised e])%list /\ settled t0
  | _ => settled t
  end.

Definition propagates {A : Type} (m : M A) : Prop :=
  forall s : EngineState, uncaught (outcome_of (m s)) (trace_of (m s)).

(** Every family a run builds is asked for in a way [P] allows. *)
Definition families_built (P : Z -> option Z -> Prop) (e : event) : Prop :=
  match e with
  | EvFamily res ib => P res ib
  | _ => True
  end.

(** How [basicDemo] and how [overflowDemo] ask for their families. *)
Definition built_from_resolution (res : Z) (ib : option Z) : Prop :=
  ib = None /\ In res [8; 32; 80; 274].

Definition built_with_width (res : Z) (ib : option Z) : Prop :=
  res = 20 /\ exists w : Z, ib = Some w /\ In w [4; 8; 16; 32].

(** The families a trace asks for, the constants it asks for, and the
    overflow points it reports. *)
Fixpoint family_requests (t : list event) : list (Z * option Z) :=
  match t with
  | [] => []
  | EvFamily res ib :: t' => (res, ib) :: family_requests t'
  | _ :: t' => family_requests t'
  end.

Fixpoint const_requests (t : list event) : list (constName * Family) :=
  match t with
  | [] => []
  | EvConst c f :: t' => (c, f) :: const_requests t'
  | _ :: t' => const_requests t'
  end.

Fixpoint overflow_points (t : list event) : list (Z * Z) :=
  match t with
  | [] => []
  | EvPrint [PInt intsize; PStr _; PFloat x] :: t' =>
      (intsize, scaledValue x) :: overflow_points t'
  | _ :: t' => overflow_points t'
  end.

Section Inputs.
Context {S : Solvers}.

(** One full turn of the loop of [overflowDemo]: [x.exp()] returns and
    [x += step] returns. *)
Definition next_input (xs : Number * EngineState)
  : option (Number * EngineState) :=
  let (x, s) := xs in
  match unary Exp x s with
  | (Ok _, s') =>
      match binary Add x (OLit step) with
      | Ok x' => Some (x', s')
      | Err _ => None
      end
  | (Err _, _) => None
  end.

(** The input of turn [n], when the [n] turns before it went through. *)
Fixpoint nth_input (n : nat) (xs : Number * EngineState)
  : option (Number * EngineState) :=
  match n with
  | O => Some xs
  | Datatypes.S n' =>
      match next_input xs with
      | Some xs' => nth_input n' xs'
      | None => None
      end
  end.

End Inputs.

Section Blocks.
Context {S : Solvers}.

(** What [basicDemo] leaves for one resolution [r]: a family built from
    [r] alone, the number 2 under it, its root, the root times itself and
    the family's constant [exp1], each printed after it was computed. *)
Definition basic_block (r : Z) (t : list event) : Prop :=
  exists (s0 s1 s2 : EngineState) (fam : Family) (two rt sq e : Number),
    FXfamily r None s0 = (fam, s1)
    /\ FXnum (VLit (VInt 2)) fam = Ok two
    /\ unary Sqrt two s1 = (Ok rt, s1)
    /\ binary Mul rt (ONum rt) = Ok sq
    /\ constant Cexp1 fam s1 = (Ok e, s2)
    /\ t = [EvFamily r None;
            EvPrint [PStr "=== "; PInt r; PStr " bits ==="];
            EvNum (VLit (VInt 2)) fam;
            EvUnary Sqrt two;
            EvPrint [PStr "sqrt("; PInt 2; PStr ")~ "; PNum rt];
            EvBinary Mul rt (ONum rt);
            EvPrint [PStr "sqrt("; PInt 2; PStr ")^2 ~ "; PNum sq];
            EvConst Cexp1 fam;
            EvPrint [PStr "exp(1) ~ "; PNum e];
            EvPrint []].

End Blocks.

(** The demos one after the other. *)
Definition in_sequence (l : list (M unit)) : M unit := for_each l id.

End Run.

(** ** The shape of a trace *)

Module Shape.
Import FixedPoint Demo.

Definition is_binary (e : event) : bool :=
  match e with
  | EvBinary _ _ _ => true
  | _ => false
  end.

(** The events of the turns of the loop of [overflowDemo] that went
    through at the inputs [xs]: [x.exp()], then [x += step]. *)
Definition turns_trace (xs : list Number) : list event :=
  flat_map (fun x => [EvUnary Exp x; EvBinary Add x (OLit step)]) xs.

(** [x] after [i] steps of [x += step]. *)
Definition stepped (x : Number) (i : nat) : Number :=
  mkNumber
    (scaledValue x
     + Z.of_nat i * scale_literal (resolution (family x)) step)
    (family x).

(** The curves a trace draws. *)
Fixpoint plots (t : list event) : list (string * list (Z * Number)) :=
  match t with
  | [] => []
  | EvPlot label points :: t' => (label, points) :: plots t'
  | _ :: t' => plots t'
  end.

Definition draws_nothing (e : event) : Prop :=
  match e with
  | EvPlot _ _ => False
  | _ => True
  end.

(** The entry points of the engine that the demos without a plot use:
    square root, exponential, sum, difference, product, and the constant
    [exp1]; no plot is drawn. *)
Definition plain_entry_point (e : event) : Prop :=
  match e with
  | EvUnary Sqrt _ | EvUnary Exp _ => True
  | EvUnary _ _ => False
  | EvBinary Div _ _ => False
  | EvBinary _ _ _ => True
  | EvRBinary _ _ _ => False
  | EvConst Cexp1 _ => True
  | EvConst _ _ => False
  | EvPlot _ _ | EvShow => False
  | _ => True
  end.

(** [runs_in_turn ds s t s']: started in [s], the demos [ds] return one
    after the other, each starting in the state the one before it left,
    and leave the trace [t], their traces in this order, and the state
    [s']. *)
Inductive runs_in_turn
  : list (M unit) -> EngineState -> list event -> EngineState -> Prop :=
  | runs_none (s : EngineState) : runs_in_turn [] s [] s
  | runs_next (d : M unit) (ds : list (M unit)) (s s1 s2 : EngineState)
      (t1 t2 : list event) :
      d s = (Return tt, t1, s1) ->
      runs_in_turn ds s1 t2 s2 ->
      runs_in_turn (d :: ds) s (t1 ++ t2) s2.

(** Looking a list of names up in a registry, name by name. *)
Definition registered {V : Type} (reg : list (string * V))
  (names : list string) (ds : list V) : Prop :=
  Forall2 (fun name d => od_get name reg = Some d) names ds.

(** The solvers of [Solver] behind a default integer width of 2 bits,
    too narrow for the literal 2. *)
Definition narrow_default : Solvers :=
  {| default_integerBits := 2;
     guardBits := 16;
     sqrt_solver := Solver.sqrt;
     exp_solver := Solver.exp;
     log_solver := Solver.log;
     atan_solver := Solver.atan;
     const_solver := Solver.constant_at |}.

End Shape.

(** * Properties *)

Import FixedPoint Demo Run Shape.

(** ** The engine *)

Section EngineFacts.
Context {S : Solvers}.

Lemma Family_eqb_refl (f : Family) : Family_eqb f f = true.
Proof.
  unfold Family_eqb.
  now rewrite Nat.eqb_refl, !Z.eqb_refl.
Qed.

Lemma Family_eqb_eq (f g : Family) : Family_eqb f g = true <-> f = g.
Proof.
  split; [| intros ->; apply Family_eqb_refl].
  unfold Family_eqb. destruct f, g; simpl.
  rewrite !andb_true_iff, Nat.eqb_eq, !Z.eqb_eq.
  intros [[-> ->] ->]. reflexivity.
Qed.

(** The guard on bit lengths is the bound on magnitudes of the data model:
    [|scaledValue| < 2^(resolution + integerBits - 1)]. *)
Lemma in_range_spec (f : Family) (sv : Z) :
  in_range f sv = true
  <-> Z.abs sv < 2 ^ (resolution f + integerBits f - 1)
      /\ 0 < resolution f + integerBits f.
Proof.
  unfold in_range, bit_length.
  set (w := resolution f + integerBits f).
  rewrite Z.ltb_lt.
  destruct (Z.eqb_spec (Z.abs sv) 0) as [H0 | H0].
  - rewrite H0. split.
    + intros Hw. split; [apply Z.pow_pos_nonneg; lia | lia].
    + intros [_ Hw]. lia.
  - assert (Hpos : 0 < Z.abs sv) by lia.
    split.
    + intros Hlt.
      pose proof (Z.log2_nonneg (Z.abs sv)) as Hnn.
      split; [| lia].
      apply Z.log2_lt_pow2; lia.
    + intros [Hlt Hw].
      apply Z.log2_lt_pow2 in Hlt; lia.
Qed.

Lemma in_range_opp (f : Family) (sv : Z) : in_range f (- sv) = in_range f sv.
Proof. unfold in_range, bit_length. now rewrite Z.abs_opp. Qed.

Lemma checked_ok (f : Family) (sv : Z) :
  in_range f sv = true -> checked f sv = Ok (mkNumber sv f).
Proof. intros H. unfold checked, validate. now rewrite H. Qed.

Lemma checked_inv (f : Family) (sv : Z) (x : Number) :
  checked f sv = Ok x ->
  x = mkNumber sv f /\ in_range f sv = true.
Proof.
  unfold checked, validate. destruct (in_range f sv); simpl; [| discriminate].
  intros [= <-]. auto.
Qed.

Lemma checked_err (f : Family) (sv : Z) (e : FXerror) :
  checked f sv = Err e -> e = FXoverflowError /\ in_range f sv = false.
Proof.
  unfold checked, validate. destruct (in_range f sv); simpl; [discriminate |].
  intros [= <-]. auto.
Qed.

(** Every entry point gives its result under the family it worked in. *)
Lemma FXnum_family (v : value) (f : Family) (x : Number) :
  FXnum v f = Ok x -> family x = f.
Proof. intros H. apply checked_inv in H as [-> _]. reflexivity. Qed.

Lemma apply_binop_family (op : binop) (f : Family) (a b : Z) (x : Number) :
  apply_binop op f a b = Ok x -> family x = f.
Proof.
  destruct op; simpl; try (intros H; apply checked_inv in H as [-> _]; reflexivity).
  destruct (b =? 0); [discriminate |].
  intros H; apply checked_inv in H as [-> _]; reflexivity.
Qed.

Lemma binary_family (op : binop) (a : Number) (b : operand) (x : Number) :
  binary op a b = Ok x -> family x = family a.
Proof.
  unfold binary. destruct (promote (family a) b); simpl; [| discriminate].
  apply apply_binop_family.
Qed.

Lemma rbinary_family (op : binop) (l : literal) (b x : Number) :
  rbinary op l b = Ok x -> family x = family b.
Proof.
  unfold rbinary. destruct (FXnum (VLit l) (family b)); simpl; [| discriminate].
  apply apply_binop_family.
Qed.

Lemma constant_family (c : constName) (f : Family) (s s' : EngineState)
  (x : Number) :
  constant c f s = (Ok x, s') -> family x = f.
Proof.
  unfold constant.
  destruct (cache_of f s !! constKey c).
  - intros [= <- _]. reflexivity.
  - destruct (validate f _); intros [= <- _]. reflexivity.
Qed.

Lemma unary_family (op : unop) (x : Number) (s s' : EngineState) (y : Number) :
  unary op x s = (Ok y, s') -> family y = family x.
Proof.
  destruct op; simpl.
  1, 2, 4:
    match goal with
    | |- (rbind ?r _, _) = _ -> _ =>
        destruct r; simpl; intros [= H _];
        apply checked_inv in H as [-> _]; reflexivity
    end.
  - destruct (constant Clog2 (family x) s) as [[ln2 | e] s1]; [| discriminate].
    destruct (log_solver _ _ _); simpl; intros [= H _].
    apply checked_inv in H as [-> _]; reflexivity.
  - intros [= <- _]. reflexivity.
Qed.

End EngineFacts.

Section Caching.
Context {S : Solvers}.

Lemma cache_of_insert (f : Family) (s : EngineState) (m : gmap string Z) :
  cache_of f {| next_id := next_id s;
                caches := <[fam_id f := m]> (caches s);
                computations := Datatypes.S (computations s) |} = m.
Proof. unfold cache_of. simpl. now rewrite lookup_insert_eq. Qed.

(** After a successful request the value sits in the family's cache. *)
Lemma constant_stored (c : constName) (f : Family) (s s1 : EngineState)
  (n1 : Number) :
  constant c f s = (Ok n1, s1) ->
  n1 = mkNumber (scaledValue n1) f
  /\ cache_of f s1 !! constKey c = Some (scaledValue n1).
Proof.
  unfold constant.
  destruct (cache_of f s !! constKey c) as [v |] eqn:Hc.
  - intros [= <- <-]. auto.
  - destruct (validate f _) as [v' | e]; intros [= <- <-].
    split; [reflexivity |].
    simpl. rewrite cache_of_insert. apply lookup_insert_eq.
Qed.

(** A request that finds the value cached returns it and touches nothing. *)
Lemma constant_hit (c : constName) (f : Family) (s : EngineState) (v : Z) :
  cache_of f s !! constKey c = Some v ->
  constant c f s = (Ok (mkNumber v f), s).
Proof. intros H. unfold constant. now rewrite H. Qed.

Lemma constant_twice (c : constName) (f : Family) (s s1 : EngineState)
  (n1 : Number) :
  constant c f s = (Ok n1, s1) -> constant c f s1 = (Ok n1, s1).
Proof.
  intros H. apply constant_stored in H as [Hn Hc].
  rewrite (constant_hit _ _ _ _ Hc). now rewrite <- Hn.
Qed.

(** A first request that has to compute counts one computation. *)
Lemma constant_miss_counts (c : constName) (f : Family) (s : EngineState) :
  cache_of f s !! constKey c = None ->
  computations (snd (constant c f s)) = Datatypes.S (computations s).
Proof.
  intros H. unfold constant. rewrite H.
  destruct (validate f _); reflexivity.
Qed.

End Caching.

(** C3: for every Family and all Numbers [a], [b] under it, as long as the
    sum stays inside the family's range, [(a + b) - b] is [a] exactly:
    the addition returns the exact sum of the scaled values and the
    subtraction gives back [a], scaled value and family. *)
Theorem add_then_sub_exact (a b : Number) :
  family b = family a ->
  in_range (family a) (scaledValue a) = true ->
  in_range (family a) (scaledValue a + scaledValue b) = true ->
  exists c : Number,
    binary Add a (ONum b) = Ok c
    /\ scaledValue c = scaledValue a + scaledValue b
    /\ binary Sub c (ONum b) = Ok a.
Proof.
  intros Hfam Ha Hsum.
  exists (mkNumber (scaledValue a + scaledValue b) (family a)).
  unfold binary, promote; simpl.
  rewrite Hfam, Family_eqb_refl; simpl.
  unfold add_raw, sub_raw.
  rewrite (checked_ok _ _ Hsum).
  repeat split.
  replace (scaledValue a + scaledValue b - scaledValue b)
    with (scaledValue a) by lia.
  rewrite (checked_ok _ _ Ha). now destruct a.
Qed.

Lemma add_then_sub_exact_witness :
  let f := mkFamily 0 8 4 in
  let a := mkNumber 384 f in
  let b := mkNumber 100 f in
  (family b = family a
   /\ in_range (family a) (scaledValue a) = true
   /\ in_range (family a) (scaledValue a + scaledValue b) = true)
  /\ exists c : Number,
       binary Add a (ONum b) = Ok c
       /\ scaledValue c = scaledValue a + scaledValue b
       /\ binary Sub c (ONum b) = Ok a.
Proof.
  intros f a b.
  split; [repeat split |].
  apply (add_then_sub_exact a b); reflexivity.
Defined.

(** ** The harness monad *)

Section MonadFacts.
Context {A B : Type}.

Lemma bind_return (m : M A) (k : A -> M B) (s s1 : EngineState)
  (a : A) (t1 : list event) :
  m s = (Return a, t1, s1) ->
  bind m k s = (outcome_of (k a s1), (t1 ++ trace_of (k a s1))%list,
                state_of (k a s1)).
Proof.
  intros H. unfold bind. rewrite H.
  now destruct (k a s1) as [[r t2] s2].
Qed.

Lemma bind_raise (m : M A) (k : A -> M B) (s s1 : EngineState)
  (e : exn) (t1 : list event) :
  m s = (Raise e, t1, s1) -> bind m k s = (Raise e, t1, s1).
Proof. intros H. unfold bind. now rewrite H. Qed.

Lemma bind_out_of_fuel (m : M A) (k : A -> M B) (s s1 : EngineState)
  (t1 : list event) :
  m s = (OutOfFuel, t1, s1) -> bind m k s = (OutOfFuel, t1, s1).
Proof. intros H. unfold bind. now rewrite H. Qed.

Lemma bind_return_inv (m : M A) (k : A -> M B) (s s' : EngineState)
  (b : B) (t : list event) :
  bind m k s = (Return b, t, s') ->
  exists (a : A) (t1 t2 : list event) (s1 : EngineState),
    m s = (Return a, t1, s1)
    /\ k a s1 = (Return b, t2, s')
    /\ t = (t1 ++ t2)%list.
Proof.
  unfold bind.
  destruct (m s) as [[[a | e |] t1] s1]; try discriminate.
  destruct (k a s1) as [[r t2] s2] eqn:Hk.
  intros [= -> <- ->].
  exists a, t1, t2, s1. auto.
Qed.

Lemma holds_bind (P : event -> Prop) (Q : A -> Prop) (R : B -> Prop)
  (m : M A) (k : A -> M B) :
  holds P Q m ->
  (forall a : A, Q a -> holds P R (k a)) ->
  holds P R (bind m k).
Proof.
  intros Hm Hk s. specialize (Hm s) as [Ht Hq].
  unfold bind, trace_of, outcome_of in *.
  destruct (m s) as [[[a | e |] t1] s1]; simpl in *;
    try (split; [assumption | discriminate]).
  specialize (Hk a (Hq a eq_refl) s1) as [Ht2 Hr].
  unfold trace_of, outcome_of in *.
  destruct (k a s1) as [[r t2] s2]; simpl in *.
  split; [apply Forall_app; auto | assumption].
Qed.

End MonadFacts.

Lemma holds_weaken {A : Type} (P : event -> Prop) (Q Q' : A -> Prop) (m : M A) :
  holds P Q m -> (forall a, Q a -> Q' a) -> holds P Q' m.
Proof.
  intros H HQ s. specialize (H s) as [Ht Hq]. split; auto.
Qed.

Lemma holds_ret {A : Type} (P : event -> Prop) (Q : A -> Prop) (a : A) :
  Q a -> holds P Q (ret a).
Proof.
  intros H s. split; [constructor |].
  unfold outcome_of; simpl. now intros ? [= <-].
Qed.

Lemma holds_raise {A : Type} (P : event -> Prop) (Q : A -> Prop) (e : exn) :
  holds P Q (raise e).
Proof. intros s. split; [constructor | discriminate]. Qed.

Lemma holds_out_of_fuel {A : Type} (P : event -> Prop) (Q : A -> Prop) :
  holds P Q out_of_fuel.
Proof. intros s. split; [constructor | discriminate]. Qed.

Lemma holds_raised {A : Type} (P : event -> Prop) (Q : A -> Prop)
  (e : FXerror) :
  P (EvRaised e) -> holds P Q (raised e).
Proof. intros H s. split; [repeat constructor; exact H | discriminate]. Qed.

Lemma holds_of_result {A : Type} (P : event -> Prop) (Q : A -> Prop)
  (r : result A) :
  (forall e, P (EvRaised e)) ->
  (forall a, r = Ok a -> Q a) -> holds P Q (of_result r).
Proof.
  intros HR H. destruct r; [apply holds_ret; auto | apply holds_raised, HR].
Qed.

Lemma holds_of_engine {A : Type} (P : event -> Prop) (Q : A -> Prop)
  (op : EngineState -> result A * EngineState) :
  (forall e, P (EvRaised e)) ->
  (forall s s' a, op s = (Ok a, s') -> Q a) -> holds P Q (of_engine op).
Proof.
  intros HR H s. unfold of_engine, trace_of, outcome_of.
  destruct (op s) as [[a | e] s'] eqn:Hop; simpl.
  - split; [constructor |]. intros ? [= <-]. eauto.
  - split; [repeat constructor; apply HR | discriminate].
Qed.

Lemma holds_try {A : Type} (P : event -> Prop) (Q : A -> Prop) (m : M A) :
  holds P Q m ->
  holds P (fun r => forall a, r = Some a -> Q a) (try_except_overflow m).
Proof.
  intros H s. specialize (H s) as [Ht Hq].
  unfold try_except_overflow, trace_of, outcome_of in *.
  destruct (m s) as [[[a | [[] | ] |] t] s']; simpl in *;
    (split; [assumption |]); try discriminate.
  - intros ? [= <-] ? [= <-]. auto.
  - intros ? [= <-] ?. discriminate.
Qed.

Lemma holds_for_each {A : Type} (P : event -> Prop) (l : list A) (body : A -> M unit) :
  (forall v, In v l -> holds P (fun _ => True) (body v)) ->
  holds P (fun _ => True) (for_each l body).
Proof.
  induction l as [| v l IH]; intros H; simpl.
  - now apply holds_ret.
  - eapply holds_bind; [apply H; now left |].
    intros _ _. apply IH. intros w Hw. apply H. now right.
Qed.

Lemma holds_iterate {A : Type} (P : event -> Prop) (I : A -> Prop) (n : nat)
  (body : A -> M A) (x : A) :
  (forall y, I y -> holds P I (body y)) ->
  I x -> holds P I (iterate n body x).
Proof.
  intros Hb. revert x.
  induction n as [| n IH]; intros x Hx; simpl.
  - now apply holds_ret.
  - eapply holds_bind; [now apply Hb |]. intros y Hy. now apply IH.
Qed.

Lemma holds_collect {A B : Type} (P : event -> Prop) (l : list A)
  (body : A -> M B) :
  (forall v, In v l -> holds P (fun _ => True) (body v)) ->
  holds P (fun _ => True) (collect l body).
Proof.
  induction l as [| v l IH]; intros H; simpl.
  - now apply holds_ret.
  - eapply holds_bind; [apply H; now left |].
    intros b _. eapply holds_bind.
    + apply IH. intros w Hw. apply H. now right.
    + intros bs _. now apply holds_ret.
Qed.

Lemma holds_emit (P : event -> Prop) (e : event) :
  P e -> holds P (fun _ => True) (emit e).
Proof.
  intros H s. split; [repeat constructor; exact H | auto].
Qed.

(** A call announces itself before anything else happens. *)
Lemma trace_emit_first {A B : Type} (e : event) (m : M A) (k : A -> M B)
  (s : EngineState) :
  exists t : list event,
    trace_of (bind (bind (emit e) (fun _ => m)) k s) = e :: t.
Proof.
  unfold bind, emit, trace_of.
  destruct (m s) as [[[a | x |] t1] s1]; simpl; eauto.
  destruct (k a s1) as [[r t2] s2]; simpl; eauto.
Qed.

(** ** The calls of the harness into the engine *)

Section Calls.
Context {S : Solvers}.
Variable P : event -> Prop.
Hypothesis P_raised : forall e : FXerror, P (EvRaised e).

Lemma call_FXfamily_holds (res : Z) (ib : option Z) :
  P (EvFamily res ib) ->
  holds P (fun f => resolution f = res
                    /\ integerBits f = from_option id default_integerBits ib)
        (call_FXfamily res ib).
Proof.
  intros H. unfold call_FXfamily.
  eapply holds_bind; [apply holds_emit, H |].
  intros _ _ s. unfold trace_of, outcome_of; simpl.
  split; [constructor |]. intros f [= <-]. auto.
Qed.

Lemma call_FXnum_holds (v : value) (f : Family) :
  P (EvNum v f) ->
  holds P (fun x => family x = f) (call_FXnum v f).
Proof.
  intros H. unfold call_FXnum.
  eapply holds_bind; [apply holds_emit, H |].
  intros _ _. apply holds_of_result; [exact P_raised |]. apply FXnum_family.
Qed.

Lemma call_unary_holds (op : unop) (x : Number) :
  P (EvUnary op x) ->
  holds P (fun y => family y = family x) (call_unary op x).
Proof.
  intros H. unfold call_unary.
  eapply holds_bind; [apply holds_emit, H |].
  intros _ _. apply holds_of_engine; [exact P_raised |]. intros s s' y. apply unary_family.
Qed.

Lemma call_binary_holds (op : binop) (a : Number) (b : operand) :
  P (EvBinary op a b) ->
  holds P (fun y => family y = family a) (call_binary op a b).
Proof.
  intros H. unfold call_binary.
  eapply holds_bind; [apply holds_emit, H |].
  intros _ _. apply holds_of_result; [exact P_raised |]. apply binary_family.
Qed.

Lemma call_rbinary_holds (op : binop) (l : literal) (b : Number) :
  P (EvRBinary op l b) ->
  holds P (fun y => family y = family b) (call_rbinary op l b).
Proof.
  intros H. unfold call_rbinary.
  eapply holds_bind; [apply holds_emit, H |].
  intros _ _. apply holds_of_result; [exact P_raised |]. apply rbinary_family.
Qed.

Lemma call_constant_holds (c : constName) (f : Family) :
  P (EvConst c f) ->
  holds P (fun x => family x = f) (call_constant c f).
Proof.
  intros H. unfold call_constant.
  eapply holds_bind; [apply holds_emit, H |].
  intros _ _. apply holds_of_engine; [exact P_raised |]. intros s s' y. apply constant_family.
Qed.

End Calls.

Ltac event_ok :=
  solve [intros; simpl; repeat split; first [exact I | congruence | auto]].

Ltac call_holds :=
  first [ apply call_FXfamily_holds
        | apply call_FXnum_holds
        | apply call_unary_holds
        | apply call_binary_holds
        | apply call_rbinary_holds
        | apply call_constant_holds
        | apply holds_emit ]; event_ok.

(** One statement of a demo: its call keeps the invariant, the rest goes on
    with what the call returned. *)
Ltac hstep :=
  lazymatch goal with
  | |- holds _ _ (bind _ _) =>
      eapply holds_bind; [call_holds | intros ? ?; cbv beta in *]
  end.
Tactic Notation "hstep" "as" ident(x) ident(H) :=
  lazymatch goal with
  | |- holds _ _ (bind _ _) =>
      eapply holds_bind; [call_holds | intros x H; cbv beta in H]
  end.
Ltac hlast := eapply holds_weaken; [call_holds | event_ok].

(** ** No operation of the harness mixes families *)

Section FamilyDiscipline.
Context {S : Solvers}.

Lemma basicDemo_same_family :
  holds same_family_event (fun _ => True) basicDemo.
Proof.
  apply holds_for_each. intros resolution _.
  unfold basicDemo_step, print. repeat hstep. hlast.
Qed.

Lemma overflow_loop_same_family (fuel : nat) (intsize : Z) (x : Number) :
  holds same_family_event (fun _ => True) (overflow_loop fuel intsize x).
Proof.
  revert x. induction fuel as [| fuel IH]; intros x; simpl.
  - apply holds_out_of_fuel.
  - eapply holds_bind.
    + apply holds_try. call_holds.
    + intros [ex |] _; [| unfold print; hlast].
      hstep. apply IH.
Qed.

Lemma overflowDemo_same_family (fuel : nat) :
  holds same_family_event (fun _ => True) (overflowDemo fuel).
Proof.
  unfold overflowDemo, print. hstep.
  eapply holds_bind; [| intros ? ?; hlast].
  apply holds_for_each. intros intsize _.
  unfold overflowDemo_step. repeat hstep.
  apply overflow_loop_same_family.
Qed.

Lemma logistic_step_same_family (lmb one x : Number) :
  family lmb = family one ->
  family x = family one ->
  holds same_family_event (fun y => family y = family one)
        (logistic_step lmb one x).
Proof.
  intros Hl Hx. unfold logistic_step. repeat hstep. hlast.
Qed.

Lemma speedDemo_same_family :
  holds same_family_event (fun _ => True) speedDemo.
Proof.
  unfold speedDemo, print. hstep.
  eapply holds_bind.
  - apply holds_for_each. intros [res count] _.
    unfold speedDemo_arith, print.
    hstep as fam Hfam. hstep as x Hx. hstep as lmb Hlmb. hstep as one Hone.
    hstep.
    eapply holds_bind.
    + apply (holds_iterate _ (fun y => family y = family one)).
      * intros y Hy. apply logistic_step_same_family; congruence.
      * congruence.
    + intros ? ?. hstep. hlast.
  - intros ? ?.
    apply holds_for_each. intros [res count] _.
    unfold speedDemo_sqrt, print. repeat hstep.
    eapply holds_bind.
    + apply holds_for_each. intros i _. hstep. now apply holds_ret.
    + intros ? ?. hstep. hlast.
Qed.

Lemma holds_events {A : Type} (P P' : event -> Prop) (Q : A -> Prop)
  (m : M A) :
  (forall e, P e -> P' e) -> holds P Q m -> holds P' Q m.
Proof.
  intros HP H s. specialize (H s) as [Ht Hq]. split; [| assumption].
  eapply Forall_impl; eauto.
Qed.

Lemma within_same_family (f : Family) (e : event) :
  within_family f e -> same_family_event e.
Proof.
  destruct e; simpl; auto.
  destruct b; [| auto]. intros [-> ->]. reflexivity.
Qed.

Lemma lostbits_within (x x_acc : Number) :
  holds (within_family (family x_acc)) (fun y => family y = family x_acc)
        (lostbits x x_acc).
Proof.
  unfold lostbits. repeat hstep. hlast.
Qed.

Lemma lostbits_same_family (x x_acc : Number) :
  holds same_family_event (fun _ => True) (lostbits x x_acc).
Proof.
  eapply holds_events; [apply within_same_family |].
  eapply holds_weaken; [apply lostbits_within | auto].
Qed.

Lemma piPlot_same_family :
  holds same_family_event (fun _ => True) piPlot.
Proof.
  unfold piPlot. repeat hstep.
  eapply holds_bind.
  - apply holds_collect. intros res _.
    unfold piPlot_point. repeat hstep. now apply holds_ret.
  - intros pipoints _.
    eapply holds_bind; [| intros ? ?; hlast].
    apply holds_for_each. intros [arr style] _. hlast.
Qed.

Lemma piAccuracyPlot_same_family :
  holds same_family_event (fun _ => True) piAccuracyPlot.
Proof.
  unfold piAccuracyPlot.
  eapply holds_bind.
  - apply holds_collect. intros bits _.
    unfold piAccuracy_point. repeat hstep.
    eapply holds_bind; [apply lostbits_same_family | intros l1 _].
    eapply holds_bind; [apply lostbits_same_family | intros l2 _].
    now apply holds_ret.
  - intros losses _. repeat hstep. hlast.
Qed.

Lemma od_get_In {V : Type} (k : string) (d : list (string * V)) (v : V) :
  od_get k d = Some v -> In v (map snd d).
Proof.
  induction d as [| [k' v'] d IH]; simpl; [discriminate |].
  destruct (String.eqb k k'); [intros [= ->]; now left | auto].
Qed.

Lemma run_demos_holds (P : event -> Prop) (reg : list (string * M unit))
  (args : Namespace) :
  (forall d, In d (map snd reg) -> holds P (fun _ => True) d) ->
  holds P (fun _ => True) (run_demos reg args).
Proof.
  intros H. unfold run_demos. apply holds_for_each.
  intros demoname _.
  destruct (od_get demoname reg) as [demo |] eqn:Hget.
  - apply H. eapply od_get_In; eauto.
  - apply holds_raise.
Qed.

Lemma main_same_family (have : bool) (fuel : nat) (args : Namespace) :
  holds same_family_event (fun _ => True) (main have fuel args).
Proof.
  apply run_demos_holds. intros d Hd.
  destruct have; simpl in Hd;
    repeat (destruct Hd as [<- | Hd];
            [first [ apply basicDemo_same_family
                   | apply overflowDemo_same_family
                   | apply speedDemo_same_family
                   | apply piPlot_same_family
                   | apply piAccuracyPlot_same_family ] |]);
    contradiction.
Qed.

End FamilyDiscipline.

(** C5: every binary operation of a run of [main], whichever demos are
    selected and whatever the engine's solvers return, combines two
    Numbers of one family or a Number with a promoted literal; and
    [lostbits] first rebuilds [x] under the family of [x_acc], after which
    all its binary operations work inside that family. *)
Theorem harness_never_mixes_families {S : Solvers} (have : bool)
  (fuel : nat) (args : Namespace) (s : EngineState) :
  Forall same_family_event (trace_of (main have fuel args s))
  /\ forall (x x_acc : Number) (s0 : EngineState),
       exists t : list event,
         trace_of (lostbits x x_acc s0) = EvNum (VNum x) (family x_acc) :: t
         /\ Forall (within_family (family x_acc)) t.
Proof.
  split; [apply main_same_family |].
  intros x x_acc s0.
  destruct (lostbits_within x x_acc s0) as [Ht _].
  unfold lostbits, call_FXnum in *.
  destruct (trace_emit_first (EvNum (VNum x) (family x_acc))
              (of_result (FXnum (VNum x) (family x_acc)))
              (fun xa =>
                 eps <- call_binary Sub xa (ONum x_acc) ;;
                 a <- call_unary Abs eps ;;
                 l <- call_unary Log a ;;
                 ln2 <- call_constant Clog2 (family x_acc) ;;
                 q <- call_binary Div l (ONum ln2) ;;
                 call_binary Add q (OLit (VInt (resolution (family x)))))
              s0) as [t Heq].
  exists t. split; [exact Heq |].
  rewrite Heq in Ht. now inversion Ht.
Qed.

(** ** Demo selection *)

Section Selection.
Context {V : Type}.

Lemma od_get_app_notin (k : string) (pre d : list (string * V)) :
  ~ In k (od_keys pre) -> od_get k (pre ++ d) = od_get k d.
Proof.
  induction pre as [| [k' v'] pre IH]; simpl; [reflexivity |].
  intros Hk. destruct (String.eqb_spec k k') as [-> | Hne].
  - exfalso. apply Hk. now left.
  - apply IH. intros Hin. apply Hk. now right.
Qed.

Lemma od_get_head (k : string) (v : V) (pre d : list (string * V)) :
  ~ In k (od_keys pre) -> od_get k (pre ++ (k, v) :: d) = Some v.
Proof.
  intros Hk. rewrite od_get_app_notin by assumption.
  simpl. now rewrite String.eqb_refl.
Qed.

Lemma od_get_None (k : string) (d : list (string * V)) :
  od_get k d = None <-> ~ In k (od_keys d).
Proof.
  induction d as [| [k' v'] d IH]; simpl; [tauto |].
  destruct (String.eqb_spec k k') as [-> | Hne].
  - split; [discriminate | intros H; exfalso; apply H; now left].
  - rewrite IH. split.
    + intros H [Heq | Hin]; [congruence | contradiction].
    + intros H Hin. apply H. now right.
Qed.

End Selection.

(** Looking every key up in registration order runs the registry's demos
    one after the other. *)
Lemma lookup_all_in_sequence (pre d : list (string * M unit))
  (s : EngineState) :
  List.NoDup (od_keys (pre ++ d)) ->
  for_each (od_keys d)
    (fun demoname =>
       match od_get demoname (pre ++ d) with
       | Some demo => demo
       | None => raise (KeyError demoname)
       end) s
  = in_sequence (map snd d) s.
Proof.
  revert pre s. induction d as [| [k v] d IH]; intros pre s Hnd; simpl.
  - reflexivity.
  - unfold od_keys in Hnd. rewrite map_app in Hnd. simpl in Hnd.
    pose proof (NoDup_remove_2 _ _ _ Hnd) as Hk.
    rewrite od_get_head
      by (intros Hin; apply Hk, in_or_app; left; exact Hin).
    unfold in_sequence; simpl. unfold bind, id at 1.
    destruct (v s) as [[[[] | e |] t1] s1]; try reflexivity.
    specialize (IH (pre ++ [(k, v)])%list s1).
    rewrite <- app_assoc in IH. simpl in IH.
    unfold in_sequence in IH. rewrite IH; [reflexivity |].
    unfold od_keys. rewrite map_app. exact Hnd.
Qed.

Lemma run_demos_all (reg : list (string * M unit)) (args : Namespace)
  (s : EngineState) :
  all args = true \/ demos args = [] ->
  List.NoDup (od_keys reg) ->
  run_demos reg args s = in_sequence (map snd reg) s.
Proof.
  intros Hall Hnd. unfold run_demos.
  replace (all args || is_empty (demos args)) with true.
  - apply (lookup_all_in_sequence [] reg s Hnd).
  - destruct Hall as [-> | ->]; [reflexivity | now rewrite orb_true_r].
Qed.

Lemma in_sequence_runs (ds : list (M unit)) (s s' : EngineState)
  (t : list event) :
  in_sequence ds s = (Return tt, t, s') <-> runs_in_turn ds s t s'.
Proof.
  revert s t. induction ds as [| d ds IH]; intros s t.
  - unfold in_sequence; cbn [for_each]. unfold ret. split.
    + intros [= <- <-]. constructor.
    + intros H. inversion H; subst. reflexivity.
  - change (in_sequence (d :: ds) s)
      with (bind d (fun _ => in_sequence ds) s).
    split.
    + intros H.
      apply bind_return_inv in H as ([] & t1 & t2 & s1 & Hd & Hr & ->).
      econstructor; [exact Hd | now apply IH].
    + intros H. inversion H as [| d' ds' s0 s1 s2 t1 t2 Hd Hr]; subst.
      apply IH in Hr. rewrite (bind_return _ _ _ _ _ _ Hd), Hr.
      reflexivity.
Qed.

Section Registry.
Context {S : Solvers}.

Lemma registry_keys (have : bool) (fuel : nat) :
  od_keys (registry have fuel)
  = (["basic"; "overflow"; "speed"]
     ++ if have then ["piplot"; "piaccplot"] else [])%list.
Proof. now destruct have. Qed.

Lemma registry_demos (have : bool) (fuel : nat) :
  map snd (registry have fuel)
  = ([basicDemo; overflowDemo fuel; speedDemo]
     ++ if have then [piPlot; piAccuracyPlot] else [])%list.
Proof. now destruct have. Qed.

Lemma registry_NoDup (have : bool) (fuel : nat) :
  List.NoDup (od_keys (registry have fuel)).
Proof.
  rewrite registry_keys.
  destruct have; simpl;
    repeat (constructor; [simpl; intuition discriminate |]); constructor.
Qed.

End Registry.

(** C10: called with no demo names, or with [--all], [main] runs the
    registered demos one after the other, each once, in registration
    order: basic, overflow, speed and, when matplotlib is there, piplot
    and piaccplot.  [main] is the demos in this sequence; it returns just
    when they return in turn, each starting in the state the one before
    it left, and its trace is then their traces in this order. *)
Theorem main_runs_every_demo_in_order {S : Solvers} (have : bool)
  (fuel : nat) (args : Namespace) (s : EngineState) :
  all args = true \/ demos args = [] ->
  od_keys (registry have fuel)
  = (["basic"; "overflow"; "speed"]
     ++ if have then ["piplot"; "piaccplot"] else [])%list
  /\ main have fuel args s
     = (basicDemo ;;; overflowDemo fuel ;;; speedDemo ;;;
        if have then piPlot ;;; piAccuracyPlot ;;; ret tt else ret tt) s
  /\ (forall (t : list event) (s' : EngineState),
        main have fuel args s = (Return tt, t, s')
        <-> runs_in_turn
              ([basicDemo; overflowDemo fuel; speedDemo]
               ++ if have then [piPlot; piAccuracyPlot] else [])
              s t s')
  /\ (forall (t1 t2 t3 : list event) (s1 s2 s3 : EngineState),
        have = false ->
        basicDemo s = (Return tt, t1, s1) ->
        overflowDemo fuel s1 = (Return tt, t2, s2) ->
        speedDemo s2 = (Return tt, t3, s3) ->
        main have fuel args s = (Return tt, t1 ++ t2 ++ t3, s3))
  /\ (forall (t1 t2 t3 t4 t5 : list event) (s1 s2 s3 s4 s5 : EngineState),
        have = true ->
        basicDemo s = (Return tt, t1, s1) ->
        overflowDemo fuel s1 = (Return tt, t2, s2) ->
        speedDemo s2 = (Return tt, t3, s3) ->
        piPlot s3 = (Return tt, t4, s4) ->
        piAccuracyPlot s4 = (Return tt, t5, s5) ->
        main have fuel args s
        = (Return tt, t1 ++ t2 ++ t3 ++ t4 ++ t5, s5)).
Proof.
  intros Hall.
  assert (Hmain : main have fuel args s
                  = in_sequence (map snd (registry have fuel)) s)
    by (apply run_demos_all; [exact Hall | apply registry_NoDup]).
  rewrite registry_demos in Hmain.
  split; [apply registry_keys |].
  split; [rewrite Hmain; now destruct have |].
  split; [intros t s'; rewrite Hmain; apply in_sequence_runs |].
  split.
  - intros t1 t2 t3 s1 s2 s3 -> H1 H2 H3.
    rewrite Hmain. apply in_sequence_runs. cbn [app].
    replace (t1 ++ t2 ++ t3) with (t1 ++ t2 ++ t3 ++ [])
      by now rewrite app_nil_r.
    repeat (econstructor; [eassumption |]). constructor.
  - intros t1 t2 t3 t4 t5 s1 s2 s3 s4 s5 -> H1 H2 H3 H4 H5.
    rewrite Hmain. apply in_sequence_runs. cbn [app].
    replace (t1 ++ t2 ++ t3 ++ t4 ++ t5)
      with (t1 ++ t2 ++ t3 ++ t4 ++ t5 ++ [])
      by now rewrite app_nil_r.
    repeat (econstructor; [eassumption |]). constructor.
Qed.

Lemma main_runs_every_demo_in_order_witness :
  let args := mkNamespace true ["piplot"] in
  (all args = true \/ demos args = [])
  /\ od_keys (registry (S := Solver.solvers) false 300)
     = ["basic"; "overflow"; "speed"]
  /\ main (S := Solver.solvers) false 300 args initial_state
     = (basicDemo (S := Solver.solvers) ;;;
        overflowDemo (S := Solver.solvers) 300 ;;;
        speedDemo (S := Solver.solvers) ;;; ret tt) initial_state.
Proof.
  intros args. split; [left; reflexivity |].
  destruct (main_runs_every_demo_in_order (S := Solver.solvers)
              false 300 args initial_state (or_introl eq_refl))
    as (Hkeys & Hmain & _).
  split; [exact Hkeys | exact Hmain].
Defined.




(** ** Which errors are caught *)

Lemma settled_app (t1 t2 : list event) :
  settled t1 -> settled t2 -> settled (t1 ++ t2).
Proof.
  intros H1 H2. induction H1; simpl.
  - exact H2.
  - now apply settled_cons.
  - now apply settled_caught.
Qed.

Lemma settled_one (e : event) :
  (forall k : FXerror, e <> EvRaised k) -> settled [e].
Proof. intros H. apply settled_cons; [exact H | constructor]. Qed.

(** A raise inside a settled trace is a caught overflow of [exp]. *)
Lemma settled_raise (t1 t2 : list event) (e : FXerror) :
  settled (t1 ++ EvRaised e :: t2) ->
  e = FXoverflowError
  /\ exists (x : Number) (intsize : Z) (t1' t2' : list event),
       t1 = (t1' ++ [EvUnary Exp x])%list
       /\ t2 = EvPrint (overflow_report intsize x) :: t2'.
Proof.
  remember (t1 ++ EvRaised e :: t2)%list as t eqn:Ht.
  intros H. revert t1 Ht.
  induction H as [| e0 t Hne H IH | x w t H IH]; intros t1 Ht.
  - now destruct t1.
  - destruct t1 as [| e1 t1]; simpl in Ht.
    + injection Ht; intros; subst. now contradiction (Hne e).
    + injection Ht; intros; subst.
      destruct (IH t1 eq_refl) as (-> & x & w & t1' & t2' & -> & ->).
      split; [reflexivity |].
      exists x, w, (e1 :: t1'), t2'. auto.
  - destruct t1 as [| e1 [| e2 [| e3 t1]]]; simpl in Ht;
      try discriminate.
    + injection Ht; intros; subst.
      split; [reflexivity |]. exists x, w, [], t. auto.
    + injection Ht; intros; subst.
      destruct (IH t1 eq_refl) as (-> & x' & w' & t1' & t2' & -> & ->).
      split; [reflexivity |].
      exists x', w',
        (EvUnary Exp x :: EvRaised FXoverflowError
         :: EvPrint (overflow_report w x) :: t1'), t2'.
      auto.
Qed.

Section Propagation.

Lemma propagates_ret {A : Type} (a : A) : propagates (ret a).
Proof. intros s. constructor. Qed.

Lemma propagates_emit (e : event) :
  (forall k : FXerror, e <> EvRaised k) -> propagates (emit e).
Proof. intros H s. now apply settled_one. Qed.

Lemma propagates_key_error {A : Type} (k : string) :
  propagates (raise (A := A) (KeyError k)).
Proof. intros s. constructor. Qed.

Lemma propagates_out_of_fuel {A : Type} : propagates (out_of_fuel (A := A)).
Proof. intros s. constructor. Qed.

Lemma propagates_raised {A : Type} (e : FXerror) :
  propagates (raised (A := A) e).
Proof. intros s. exists []. split; [reflexivity | constructor]. Qed.

Lemma propagates_of_result {A : Type} (r : result A) :
  propagates (of_result r).
Proof. destruct r; [apply propagates_ret | apply propagates_raised]. Qed.

Lemma propagates_of_engine {A : Type}
  (op : EngineState -> result A * EngineState) :
  propagates (of_engine op).
Proof.
  intros s. unfold of_engine, outcome_of, trace_of.
  destruct (op s) as [[a | e] s']; simpl.
  - constructor.
  - exists []. split; [reflexivity | constructor].
Qed.

Lemma propagates_bind {A B : Type} (m : M A) (k : A -> M B) :
  propagates m -> (forall a, propagates (k a)) -> propagates (bind m k).
Proof.
  intros Hm Hk s. specialize (Hm s).
  unfold bind, outcome_of, trace_of in *.
  destruct (m s) as [[[a | e |] t1] s1]; simpl in *; try assumption.
  specialize (Hk a s1). unfold outcome_of, trace_of in Hk.
  destruct (k a s1) as [[[b | [e |] |] t2] s2]; simpl in *;
    try (now apply settled_app).
  destruct Hk as (t0 & -> & H0).
  exists (t1 ++ t0)%list. split; [now rewrite app_assoc |].
  now apply settled_app.
Qed.

Lemma propagates_for_each {A : Type} (l : list A) (body : A -> M unit) :
  (forall v, propagates (body v)) -> propagates (for_each l body).
Proof.
  intros H. induction l as [| v l IH]; simpl.
  - apply propagates_ret.
  - apply propagates_bind; auto.
Qed.

Lemma propagates_iterate {A : Type} (n : nat) (body : A -> M A) (x : A) :
  (forall y, propagates (body y)) -> propagates (iterate n body x).
Proof.
  intros H. revert x. induction n as [| n IH]; intros x; simpl.
  - apply propagates_ret.
  - apply propagates_bind; auto.
Qed.

Lemma propagates_collect {A B : Type} (l : list A) (body : A -> M B) :
  (forall v, propagates (body v)) -> propagates (collect l body).
Proof.
  intros H. induction l as [| v l IH]; simpl.
  - apply propagates_ret.
  - apply propagates_bind; [apply H |]. intros b.
    apply propagates_bind; [apply IH |]. intros bs. apply propagates_ret.
Qed.

End Propagation.

(** ** One turn of the loop of [overflowDemo] *)

Section OverflowLoop.
Context {S : Solvers}.

Lemma try_exp_run (x : Number) (s : EngineState) :
  try_except_overflow (call_unary Exp x) s
  = match unary Exp x s with
    | (Ok y, s') => (Return (Some y), [EvUnary Exp x], s')
    | (Err FXoverflowError, s') =>
        (Return None, [EvUnary Exp x; EvRaised FXoverflowError], s')
    | (Err e, s') => (Raise (FXexn e), [EvUnary Exp x; EvRaised e], s')
    end.
Proof.
  unfold try_except_overflow, call_unary, of_engine, bind, emit.
  now destruct (unary Exp x s) as [[y | []] s'].
Qed.

Lemma overflow_loop_unfold (fuel : nat) (intsize : Z) (x : Number) :
  overflow_loop (Datatypes.S fuel) intsize x
  = (r <- try_except_overflow (call_unary Exp x) ;;
     match r with
     | None => print (overflow_report intsize x)
     | Some ex =>
         x' <- call_binary Add x (OLit step) ;;
         overflow_loop fuel intsize x'
     end).
Proof. reflexivity. Qed.

(** [x.exp()] overflows: the handler reports [x] and the loop ends. *)
Lemma overflow_loop_caught (fuel : nat) (intsize : Z) (x : Number)
  (s s' : EngineState) :
  unary Exp x s = (Err FXoverflowError, s') ->
  overflow_loop (Datatypes.S fuel) intsize x s
  = (Return tt,
     [EvUnary Exp x; EvRaised FXoverflowError;
      EvPrint (overflow_report intsize x)], s').
Proof.
  intros H. rewrite overflow_loop_unfold. unfold bind at 1.
  rewrite try_exp_run, H. reflexivity.
Qed.

(** [x.exp()] raises anything else: the error leaves the loop. *)
Lemma overflow_loop_exp_raises (fuel : nat) (intsize : Z) (x : Number)
  (s s' : EngineState) (e : FXerror) :
  unary Exp x s = (Err e, s') ->
  e <> FXoverflowError ->
  overflow_loop (Datatypes.S fuel) intsize x s
  = (Raise (FXexn e), [EvUnary Exp x; EvRaised e], s').
Proof.
  intros H Hne. rewrite overflow_loop_unfold. unfold bind at 1.
  rewrite try_exp_run, H. now destruct e.
Qed.

(** [x += step] raises, an overflow included: nothing catches it. *)
Lemma overflow_loop_add_raises (fuel : nat) (intsize : Z) (x ex : Number)
  (s s' : EngineState) (e : FXerror) :
  unary Exp x s = (Ok ex, s') ->
  binary Add x (OLit step) = Err e ->
  overflow_loop (Datatypes.S fuel) intsize x s
  = (Raise (FXexn e),
     [EvUnary Exp x; EvBinary Add x (OLit step); EvRaised e], s').
Proof.
  intros H Ha. rewrite overflow_loop_unfold. unfold bind at 1.
  rewrite try_exp_run, H.
  unfold call_binary, bind, emit. rewrite Ha. reflexivity.
Qed.

(** Both return: the loop goes round with [x + step]. *)
Lemma overflow_loop_next (fuel : nat) (intsize : Z) (x ex x' : Number)
  (s s' : EngineState) :
  unary Exp x s = (Ok ex, s') ->
  binary Add x (OLit step) = Ok x' ->
  overflow_loop (Datatypes.S fuel) intsize x s
  = (outcome_of (overflow_loop fuel intsize x' s'),
     [EvUnary Exp x; EvBinary Add x (OLit step)]
       ++ trace_of (overflow_loop fuel intsize x' s'),
     state_of (overflow_loop fuel intsize x' s')).
Proof.
  intros H Ha. rewrite overflow_loop_unfold. unfold bind at 1.
  rewrite try_exp_run, H.
  unfold call_binary, bind, emit. rewrite Ha. simpl.
  now destruct (overflow_loop fuel intsize x' s') as [[r t] s2].
Qed.

Lemma next_input_Some (x x' : Number) (s s' : EngineState) :
  next_input (x, s) = Some (x', s') <->
  (exists ex, unary Exp x s = (Ok ex, s'))
  /\ binary Add x (OLit step) = Ok x'.
Proof.
  unfold next_input.
  destruct (unary Exp x s) as [[ex | e] s1].
  - destruct (binary Add x (OLit step)) as [y | e].
    + split.
      * intros [= -> ->]. eauto.
      * intros [[ex' [= _ ->]] [= ->]]. reflexivity.
    + split; [discriminate | intros [_ H]; discriminate].
  - split; [discriminate | intros [[ex [=]] _]].
Qed.

(** The inputs step up by [step], inside one family. *)
Lemma next_input_value (x x' : Number) (s s' : EngineState) :
  next_input (x, s) = Some (x', s') ->
  family x' = family x
  /\ scaledValue x'
     = scaledValue x + scale_literal (resolution (family x)) step.
Proof.
  intros H. apply next_input_Some in H as [_ Ha].
  unfold binary, promote, FXnum in Ha.
  destruct (checked (family x) (scale_value (family x) (VLit step)))
    as [y |] eqn:Hy; simpl in Ha; [| discriminate].
  apply checked_inv in Hy as [-> _].
  apply checked_inv in Ha as [-> _]. simpl. auto.
Qed.

Lemma nth_input_value (n : nat) (x xn : Number) (s sn : EngineState) :
  nth_input n (x, s) = Some (xn, sn) ->
  family xn = family x
  /\ scaledValue xn
     = scaledValue x
       + Z.of_nat n * scale_literal (resolution (family x)) step.
Proof.
  revert x s. induction n as [| n IH]; intros x s; cbn [nth_input].
  - intros [= -> ->]. split; [reflexivity | lia].
  - destruct (next_input (x, s)) as [[x' s'] |] eqn:Hn; [| discriminate].
    intros H. apply IH in H as [Hf Hv].
    apply next_input_value in Hn as [Hf' Hv'].
    split; [congruence |]. rewrite Hv, Hf', Hv'. lia.
Qed.

(** While the turns go through, the loop is still running. *)
Lemma overflow_loop_running (n : nat) (intsize : Z) (x xn : Number)
  (s sn : EngineState) :
  nth_input n (x, s) = Some (xn, sn) ->
  outcome_of (overflow_loop n intsize x s) = OutOfFuel.
Proof.
  revert x s. induction n as [| n IH]; intros x s; cbn [nth_input].
  - reflexivity.
  - destruct (next_input (x, s)) as [[x' s'] |] eqn:Hn; [| discriminate].
    intros H. apply next_input_Some in Hn as [[ex Hex] Ha].
    rewrite (overflow_loop_next _ _ _ _ _ _ _ Hex Ha).
    unfold outcome_of at 1; simpl. eauto.
Qed.

(** The loop returns exactly when some turn's [x.exp()] overflows. *)
Lemma overflow_loop_returns (fuel : nat) (intsize : Z) (x : Number)
  (s s' : EngineState) (t : list event) :
  overflow_loop fuel intsize x s = (Return tt, t, s') ->
  exists (n : nat) (xn : Number) (sn : EngineState) (t0 : list event),
    (n < fuel)%nat
    /\ nth_input n (x, s) = Some (xn, sn)
    /\ unary Exp xn sn = (Err FXoverflowError, s')
    /\ t = (t0 ++ [EvUnary Exp xn; EvRaised FXoverflowError;
                   EvPrint (overflow_report intsize xn)])%list.
Proof.
  revert x s t. induction fuel as [| fuel IH]; intros x s t.
  - discriminate.
  - destruct (unary Exp x s) as [[ex | e] s1] eqn:Hex.
    + destruct (binary Add x (OLit step)) as [x' | e] eqn:Ha.
      * rewrite (overflow_loop_next _ _ _ _ _ _ _ Hex Ha).
        destruct (overflow_loop fuel intsize x' s1) as [[r t1] s2] eqn:Hl.
        unfold outcome_of, trace_of, state_of; simpl.
        intros [= -> <- ->].
        destruct (IH _ _ _ Hl) as (n & xn & sn & t0 & Hn & Hin & Hov & ->).
        exists (Datatypes.S n), xn, sn,
          (EvUnary Exp x :: EvBinary Add x (OLit step) :: t0).
        repeat split; [lia | | exact Hov].
        cbn [nth_input]. unfold next_input. now rewrite Hex, Ha.
      * rewrite (overflow_loop_add_raises _ _ _ _ _ _ _ Hex Ha).
        discriminate.
    + destruct (FXerror_eqb e FXoverflowError) eqn:He.
      * assert (e = FXoverflowError) as -> by now destruct e.
        rewrite (overflow_loop_caught _ _ _ _ _ Hex).
        intros [= <- <-].
        exists O, x, s, []. repeat split; [lia | exact Hex].
      * rewrite (overflow_loop_exp_raises _ _ _ _ _ _ Hex);
          [discriminate | now destruct e].
Qed.

Lemma overflow_loop_overflows (n : nat) (intsize : Z) (x xn : Number)
  (s sn s' : EngineState) (fuel : nat) :
  nth_input n (x, s) = Some (xn, sn) ->
  unary Exp xn sn = (Err FXoverflowError, s') ->
  (n < fuel)%nat ->
  exists t : list event,
    overflow_loop fuel intsize x s = (Return tt, t, s').
Proof.
  revert x s fuel. induction n as [| n IH]; intros x s fuel; cbn [nth_input].
  - intros [= -> ->] Hov Hlt.
    destruct fuel as [| fuel]; [lia |].
    rewrite (overflow_loop_caught _ _ _ _ _ Hov). eauto.
  - destruct (next_input (x, s)) as [[x' s1] |] eqn:Hn; [| discriminate].
    intros Hin Hov Hlt.
    destruct fuel as [| fuel]; [lia |].
    apply next_input_Some in Hn as [[ex Hex] Ha].
    rewrite (overflow_loop_next _ _ _ _ _ _ _ Hex Ha).
    destruct (IH x' s1 fuel Hin Hov) as [t Ht]; [lia |].
    rewrite Ht. unfold outcome_of, trace_of, state_of; simpl. eauto.
Qed.

(** The loop is left by an error only when [x.exp()] raises something
    other than an overflow, or [x += step] raises, at an input it reached. *)
Lemma overflow_loop_raises (fuel : nat) (intsize : Z) (x : Number)
  (s s' : EngineState) (e : exn) (t : list event) :
  overflow_loop fuel intsize x s = (Raise e, t, s') ->
  exists (k : FXerror) (n : nat) (xn : Number) (sn : EngineState),
    e = FXexn k
    /\ nth_input n (x, s) = Some (xn, sn)
    /\ ((fst (unary Exp xn sn) = Err k /\ k <> FXoverflowError)
        \/ ((exists ex, fst (unary Exp xn sn) = Ok ex)
            /\ binary Add xn (OLit step) = Err k)).
Proof.
  revert x s t. induction fuel as [| fuel IH]; intros x s t.
  - discriminate.
  - destruct (unary Exp x s) as [[ex | k] s1] eqn:Hex.
    + destruct (binary Add x (OLit step)) as [x' | k] eqn:Ha.
      * rewrite (overflow_loop_next _ _ _ _ _ _ _ Hex Ha).
        destruct (overflow_loop fuel intsize x' s1) as [[r t1] s2] eqn:Hl.
        unfold outcome_of, trace_of, state_of; simpl.
        intros [= -> <- ->].
        destruct (IH _ _ _ Hl) as (k & n & xn & sn & -> & Hin & Hk).
        exists k, (Datatypes.S n), xn, sn.
        repeat split; [| exact Hk].
        cbn [nth_input]. unfold next_input. now rewrite Hex, Ha.
      * rewrite (overflow_loop_add_raises _ _ _ _ _ _ _ Hex Ha).
        intros [= <- _ _].
        exists k, O, x, s. repeat split.
        right. rewrite Hex. split; [eauto | exact Ha].
    + destruct (FXerror_eqb k FXoverflowError) eqn:He.
      * assert (k = FXoverflowError) as -> by now destruct k.
        rewrite (overflow_loop_caught _ _ _ _ _ Hex). discriminate.
      * assert (Hne : k <> FXoverflowError) by now destruct k.
        rewrite (overflow_loop_exp_raises _ _ _ _ _ _ Hex Hne).
        intros [= <- _ _].
        exists k, O, x, s. repeat split.
        left. rewrite Hex. auto.
Qed.

End OverflowLoop.

(** C9: the [while True] loop of [overflowDemo] has one exit.  When it
    returns, the last thing it did was to catch the overflow of [x.exp()]
    and report that [x]; it returns for some amount of fuel exactly when
    the exponential overflows at one of the inputs [x, x + step, ...]
    that the loop reaches; as long as the turns go through it is still
    running, whatever their number; and the inputs step up by [step].
    An error that [x.exp()] or [x += step] raises otherwise is no exit of
    the loop: it ends the demo. *)
Theorem overflow_loop_single_exit {S : Solvers} (intsize : Z) (x : Number)
  (s : EngineState) :
  (forall (fuel : nat) (t : list event) (s' : EngineState),
     overflow_loop fuel intsize x s = (Return tt, t, s') ->
     exists (n : nat) (xn : Number) (sn : EngineState) (t0 : list event),
       (n < fuel)%nat
       /\ nth_input n (x, s) = Some (xn, sn)
       /\ unary Exp xn sn = (Err FXoverflowError, s')
       /\ t = t0 ++ [EvUnary Exp xn; EvRaised FXoverflowError;
                     EvPrint (overflow_report intsize xn)])
  /\ ((exists (fuel : nat) (t : list event) (s' : EngineState),
         overflow_loop fuel intsize x s = (Return tt, t, s'))
      <-> (exists (n : nat) (xn : Number) (sn : EngineState),
             nth_input n (x, s) = Some (xn, sn)
             /\ fst (unary Exp xn sn) = Err FXoverflowError))
  /\ (forall (n : nat) (xn : Number) (sn : EngineState),
        nth_input n (x, s) = Some (xn, sn) ->
        outcome_of (overflow_loop n intsize x s) = OutOfFuel)
  /\ (forall (n : nat) (xn : Number) (sn : EngineState),
        nth_input n (x, s) = Some (xn, sn) ->
        family xn = family x
        /\ scaledValue xn
           = scaledValue x
             + Z.of_nat n * scale_literal (resolution (family x)) step)
  /\ (forall (fuel : nat) (e : exn) (t : list event) (s' : EngineState),
        overflow_loop fuel intsize x s = (Raise e, t, s') ->
        exists (k : FXerror) (n : nat) (xn : Number) (sn : EngineState),
          e = FXexn k
          /\ nth_input n (x, s) = Some (xn, sn)
          /\ ((fst (unary Exp xn sn) = Err k /\ k <> FXoverflowError)
              \/ ((exists ex, fst (unary Exp xn sn) = Ok ex)
                  /\ binary Add xn (OLit step) = Err k))).
Proof.
  split; [intros fuel t s'; apply overflow_loop_returns |].
  split; [| split; [| split;
    [| intros fuel e t s'; apply overflow_loop_raises]]].
  - split.
    + intros (fuel & t & s' & H).
      apply overflow_loop_returns in H
        as (n & xn & sn & t0 & _ & Hin & Hov & _).
      exists n, xn, sn. split; [exact Hin | now rewrite Hov].
    + intros (n & xn & sn & Hin & Hov).
      destruct (unary Exp xn sn) as [r s'] eqn:Hex.
      simpl in Hov; subst r.
      destruct (overflow_loop_overflows n intsize x xn s sn s'
                  (Datatypes.S n) Hin Hex) as [t Ht]; [lia |].
      eauto.
  - intros n xn sn. apply overflow_loop_running.
  - intros n xn sn. apply nth_input_value.
Qed.

(** ** Errors leave a demo, except the overflow of [exp] in the loop *)

Section DemosPropagate.
Context {S : Solvers}.

Lemma uncaught_prepend {A : Type} (r : outcome A) (t1 t2 : list event) :
  settled t1 -> uncaught r t2 -> uncaught r (t1 ++ t2).
Proof.
  intros H1 H2. destruct r as [a | [e | k] |]; simpl in *;
    try (now apply settled_app).
  destruct H2 as (t0 & -> & H0).
  exists (t1 ++ t0). split; [now rewrite app_assoc | now apply settled_app].
Qed.

Lemma propagates_call_FXfamily (res : Z) (ib : option Z) :
  propagates (call_FXfamily res ib).
Proof.
  intros s. unfold call_FXfamily, bind, emit, outcome_of, trace_of; simpl.
  apply settled_one. discriminate.
Qed.

Lemma overflow_loop_propagates (fuel : nat) (intsize : Z) (x : Number) :
  propagates (overflow_loop fuel intsize x).
Proof.
  revert x. induction fuel as [| fuel IH]; intros x s.
  - constructor.
  - destruct (unary Exp x s) as [[ex | e] s1] eqn:Hex.
    + destruct (binary Add x (OLit step)) as [x' | e] eqn:Ha.
      * rewrite (overflow_loop_next _ _ _ _ _ _ _ Hex Ha).
        unfold outcome_of at 1, trace_of at 1; simpl fst; simpl snd.
        apply uncaught_prepend; [| apply IH].
        repeat (apply settled_cons; [discriminate |]). constructor.
      * rewrite (overflow_loop_add_raises _ _ _ _ _ _ _ Hex Ha).
        exists [EvUnary Exp x; EvBinary Add x (OLit step)].
        split; [reflexivity |].
        repeat (apply settled_cons; [discriminate |]). constructor.
    + destruct (FXerror_eqb e FXoverflowError) eqn:He.
      * assert (e = FXoverflowError) as -> by now destruct e.
        rewrite (overflow_loop_caught _ _ _ _ _ Hex).
        apply settled_caught. constructor.
      * rewrite (overflow_loop_exp_raises _ _ _ _ _ _ Hex)
          by now destruct e.
        exists [EvUnary Exp x]. split; [reflexivity |].
        apply settled_one. discriminate.
Qed.

End DemosPropagate.

(** Straight-line code, [for] loops and the calls into the engine hand an
    error on to whoever called them. *)
Ltac propagate :=
  repeat first
    [ apply propagates_ret
    | apply propagates_call_FXfamily
    | apply overflow_loop_propagates
    | apply propagates_of_result
    | apply propagates_of_engine
    | apply propagates_emit; discriminate
    | apply propagates_for_each; intros ?
    | apply propagates_collect; intros ?
    | apply propagates_iterate; intros ?
    | apply propagates_bind; [| intros ?] ].

Section MainPropagates.
Context {S : Solvers}.

Lemma basicDemo_propagates : propagates basicDemo.
Proof. unfold basicDemo. propagate. Qed.

Lemma overflowDemo_propagates (fuel : nat) : propagates (overflowDemo fuel).
Proof. unfold overflowDemo. propagate. Qed.

Lemma speedDemo_propagates : propagates speedDemo.
Proof.
  unfold speedDemo. propagate.
  - destruct v as [res count]. unfold speedDemo_arith. propagate.
  - destruct v as [res count]. unfold speedDemo_sqrt. propagate.
Qed.

Lemma piPlot_propagates : propagates piPlot.
Proof. unfold piPlot. propagate. destruct v as [arr style]. propagate. Qed.

Lemma piAccuracyPlot_propagates : propagates piAccuracyPlot.
Proof. unfold piAccuracyPlot. propagate. Qed.

Lemma run_demos_propagates (reg : list (string * M unit))
  (args : Namespace) :
  (forall d, In d (map snd reg) -> propagates d) ->
  propagates (run_demos reg args).
Proof.
  intros H. unfold run_demos. apply propagates_for_each.
  intros demoname.
  destruct (od_get demoname reg) as [demo |] eqn:Hget.
  - apply H. eapply od_get_In; eauto.
  - apply propagates_key_error.
Qed.

Lemma main_propagates (have : bool) (fuel : nat) (args : Namespace) :
  propagates (main have fuel args).
Proof.
  apply run_demos_propagates. intros d Hd.
  rewrite registry_demos in Hd.
  destruct have; simpl in Hd;
    repeat (destruct Hd as [<- | Hd];
            [first [ apply basicDemo_propagates
                   | apply overflowDemo_propagates
                   | apply speedDemo_propagates
                   | apply piPlot_propagates
                   | apply piAccuracyPlot_propagates ] |]);
    contradiction.
Qed.

End MainPropagates.

(** C4: the harness catches [FXoverflowError] from [x.exp()] in
    [overflowDemo], and nothing else.  In a run of [main], whichever demos
    are selected, every call that raised either was [x.exp()] overflowing,
    in which case the line that reports the width and that [x] follows
    and the run goes on, or is the last thing that happened, and [main]
    ended with that error.  In the
    loop itself an overflow of [x.exp()] is reported and ends the loop,
    any other error of [x.exp()], and any error of [x += step], leaves it. *)
Theorem only_exp_overflow_is_caught {S : Solvers} (have : bool) (fuel : nat)
  (args : Namespace) (s : EngineState) :
  (forall (t1 t2 : list event) (e : FXerror),
     trace_of (main have fuel args s) = t1 ++ EvRaised e :: t2 ->
     (e = FXoverflowError
      /\ exists (x : Number) (intsize : Z) (t1' t2' : list event),
           t1 = t1' ++ [EvUnary Exp x]
           /\ t2 = EvPrint
                      [PInt intsize;
                       PStr "-bit integer part: exp(x) overflows near x=";
                       PFloat x] :: t2')
     \/ (t2 = [] /\ outcome_of (main have fuel args s) = Raise (FXexn e)))
  /\ (forall (n : nat) (intsize : Z) (x : Number) (s0 s1 : EngineState),
        unary Exp x s0 = (Err FXoverflowError, s1) ->
        overflow_loop (Datatypes.S n) intsize x s0
        = (Return tt,
           [EvUnary Exp x; EvRaised FXoverflowError;
            EvPrint
              [PInt intsize;
               PStr "-bit integer part: exp(x) overflows near x=";
               PFloat x]], s1))
  /\ (forall (n : nat) (intsize : Z) (x : Number) (s0 s1 : EngineState)
        (e : FXerror),
        unary Exp x s0 = (Err e, s1) ->
        e <> FXoverflowError ->
        overflow_loop (Datatypes.S n) intsize x s0
        = (Raise (FXexn e), [EvUnary Exp x; EvRaised e], s1))
  /\ (forall (n : nat) (intsize : Z) (x ex : Number) (s0 s1 : EngineState)
        (e : FXerror),
        unary Exp x s0 = (Ok ex, s1) ->
        binary Add x (OLit step) = Err e ->
        overflow_loop (Datatypes.S n) intsize x s0
        = (Raise (FXexn e),
           [EvUnary Exp x; EvBinary Add x (OLit step); EvRaised e], s1)).
Proof.
  split; [| split; [| split]].
  - intros t1 t2 e Ht.
    pose proof (main_propagates have fuel args s) as H.
    rewrite Ht in H.
    destruct (outcome_of (main have fuel args s)) as [a | [e' | k] |];
      simpl in H; try (left; now apply settled_raise).
    destruct H as (t0 & Heq & H0).
    destruct (exists_last (l := EvRaised e :: t2)) as (t2' & e2 & Hl);
      [discriminate |].
    rewrite Hl, app_assoc in Heq.
    apply app_inj_tail in Heq as [<- ->].
    destruct t2' as [| e3 t2'].
    + simpl in Hl. injection Hl as -> ->. right. auto.
    + simpl in Hl. injection Hl as <- ->.
      left. apply settled_raise in H0
        as (-> & x & w & t1' & t2'' & -> & Ht2).
      split; [reflexivity |].
      exists x, w, t1'. rewrite Ht2. simpl. eauto.
  - intros n intsize x s0 s1. apply overflow_loop_caught.
  - intros n intsize x s0 s1 e. apply overflow_loop_exp_raises.
  - intros n intsize x ex s0 s1 e. apply overflow_loop_add_raises.
Qed.

(** ** The overflow demonstration on the solvers of the specification *)

Lemma in_range_wider (f1 f2 : Family) (sv : Z) :
  resolution f1 = resolution f2 ->
  integerBits f1 <= integerBits f2 ->
  in_range f1 sv = true -> in_range f2 sv = true.
Proof.
  unfold in_range. rewrite !Z.ltb_lt. intros -> Hib. lia.
Qed.

Lemma validate_wider (f1 f2 : Family) (sv v : Z) :
  resolution f1 = resolution f2 ->
  integerBits f1 <= integerBits f2 ->
  validate f1 sv = Ok v -> validate f2 sv = Ok v.
Proof.
  intros Hres Hib. unfold validate.
  destruct (in_range f1 sv) eqn:H1; [| discriminate].
  now rewrite (in_range_wider f1 f2 sv Hres Hib H1).
Qed.

Lemma validate_error (f : Family) (sv : Z) (e : FXerror) :
  validate f sv = Err e -> e = FXoverflowError.
Proof. unfold validate. destruct (in_range f sv); now intros [= <-]. Qed.

Lemma square_back_wider (k : nat) (f1 f2 : Family) (y z : Z) :
  resolution f1 = resolution f2 ->
  integerBits f1 <= integerBits f2 ->
  Solver.square_back k f1 y = Ok z -> Solver.square_back k f2 y = Ok z.
Proof.
  intros Hres Hib. revert y.
  induction k as [| k IH]; intros y; simpl; [auto |].
  rewrite <- Hres.
  destruct (validate f1 _) as [v |] eqn:Hv; simpl; [| discriminate].
  rewrite (validate_wider f1 f2 _ _ Hres Hib Hv). simpl. apply IH.
Qed.

Lemma square_back_error (k : nat) (f : Family) (y : Z) (e : FXerror) :
  Solver.square_back k f y = Err e -> e = FXoverflowError.
Proof.
  revert y. induction k as [| k IH]; intros y; simpl; [discriminate |].
  destruct (validate f _) as [v |] eqn:Hv; simpl; [apply IH |].
  intros [= <-]. eapply validate_error; eauto.
Qed.

(** Where the exponential fits a width it fits every wider one, with the
    same value; and it fails by overflow only. *)
Lemma exp_wider (f1 f2 : Family) (sv y : Z) :
  resolution f1 = resolution f2 ->
  integerBits f1 <= integerBits f2 ->
  Solver.exp f1 sv = Ok y -> Solver.exp f2 sv = Ok y.
Proof.
  intros Hres Hib. unfold Solver.exp. rewrite <- Hres.
  destruct (Solver.halve _ _ _ _) as [x k].
  destruct (validate f1 _) as [v |] eqn:Hv; simpl; [| discriminate].
  rewrite (validate_wider f1 f2 _ _ Hres Hib Hv). simpl.
  now apply square_back_wider.
Qed.

Lemma exp_error (f : Family) (sv : Z) (e : FXerror) :
  Solver.exp f sv = Err e -> e = FXoverflowError.
Proof.
  unfold Solver.exp. destruct (Solver.halve _ _ _ _) as [x k].
  destruct (validate f _) as [v |] eqn:Hv; simpl.
  - apply square_back_error.
  - intros [= <-]. eapply validate_error; eauto.
Qed.

Lemma unary_exp_narrower (x1 x2 : Number) (s1 s2 : EngineState) :
  scaledValue x1 = scaledValue x2 ->
  resolution (family x1) = resolution (family x2) ->
  integerBits (family x1) <= integerBits (family x2) ->
  fst (unary (S := Solver.solvers) Exp x2 s2) = Err FXoverflowError ->
  fst (unary (S := Solver.solvers) Exp x1 s1) = Err FXoverflowError.
Proof.
  intros Hsv Hres Hib. simpl. rewrite Hsv.
  destruct (Solver.exp (family x1) (scaledValue x2)) as [y |] eqn:H1; simpl.
  - rewrite (exp_wider _ _ _ _ Hres Hib H1). simpl.
    destruct (checked (family x1) y) as [n1 |] eqn:Hc1.
    + apply checked_inv in Hc1 as [_ Hr].
      now rewrite (checked_ok _ _ (in_range_wider _ _ _ Hres Hib Hr)).
    + apply checked_err in Hc1 as [-> _]. reflexivity.
  - intros _. f_equal. eapply exp_error; eauto.
Qed.

(** C1: in the overflow demonstration (20 fractional bits, input stepped
    up by 0.1 from 0) the exponential overflows at a smaller input for a
    narrower integer width: with any fuel from 300 on and from any engine
    state the demo returns, it reports one overflow point for each of the
    widths 4, 8, 16 and 32 (near 2.1, 4.9, 10.4 and 21.5), and for every
    two reported widths [w1 < w2] the point of [w1] is no larger than the
    point of [w2].  Behind it: at one resolution, an input at which the
    exponential overflows under some width overflows under every narrower
    width too. *)
Theorem overflow_points_grow_with_width (k : nat) (s : EngineState) :
  let run := overflowDemo (S := Solver.solvers) (300 + k) s in
  outcome_of run = Return tt
  /\ overflow_points (trace_of run)
     = [(4, 2201997); (8, 5137993); (16, 10905128); (32, 22544255)]
  /\ (forall w1 x1 w2 x2 : Z,
       In (w1, x1) (overflow_points (trace_of run)) ->
       In (w2, x2) (overflow_points (trace_of run)) ->
       w1 < w2 -> x1 <= x2)
  /\ (forall (x1 x2 : Number) (s1 s2 : EngineState),
        scaledValue x1 = scaledValue x2 ->
        resolution (family x1) = resolution (family x2) ->
        integerBits (family x1) <= integerBits (family x2) ->
        fst (unary (S := Solver.solvers) Exp x2 s2) = Err FXoverflowError ->
        fst (unary (S := Solver.solvers) Exp x1 s1) = Err FXoverflowError).
Proof.
  intros run.
  assert (Hout : outcome_of run = Return tt) by (vm_compute; reflexivity).
  assert (Hpts : overflow_points (trace_of run)
                 = [(4, 2201997); (8, 5137993); (16, 10905128);
                    (32, 22544255)]) by (vm_compute; reflexivity).
  split; [exact Hout |]. split; [exact Hpts |].
  split; [| apply unary_exp_narrower].
  rewrite Hpts. intros w1 x1 w2 x2 H1 H2 Hlt.
  simpl in H1, H2.
  repeat match goal with
         | H : _ \/ _ |- _ => destruct H
         | H : (_, _) = (_, _) |- _ => injection H as <- <-
         | H : False |- _ => destruct H
         end; lia.
Qed.

(** ** What a returning call did *)

Section CallsReturn.
Context {S : Solvers}.

Lemma emit_inv (e : event) (s s' : EngineState) (a : unit)
  (t : list event) :
  emit e s = (Return a, t, s') -> t = [e] /\ s' = s.
Proof. unfold emit. intros [= _ <- <-]. auto. Qed.

Lemma of_result_inv {A : Type} (r : result A) (s s' : EngineState) (a : A)
  (t : list event) :
  of_result r s = (Return a, t, s') -> r = Ok a /\ t = [] /\ s' = s.
Proof.
  destruct r as [a0 | e]; simpl; [| discriminate].
  unfold ret. intros [= <- <- <-]. auto.
Qed.

Lemma of_engine_inv {A : Type} (op : EngineState -> result A * EngineState)
  (s s' : EngineState) (a : A) (t : list event) :
  of_engine op s = (Return a, t, s') -> op s = (Ok a, s') /\ t = [].
Proof.
  unfold of_engine. destruct (op s) as [[a0 | e] s1]; [| discriminate].
  intros [= <- <- <-]. auto.
Qed.

Lemma call_FXfamily_inv (res : Z) (ib : option Z) (s s' : EngineState)
  (f : Family) (t : list event) :
  call_FXfamily res ib s = (Return f, t, s') ->
  FXfamily res ib s = (f, s') /\ t = [EvFamily res ib].
Proof.
  unfold call_FXfamily, bind, emit.
  destruct (FXfamily res ib s) as [f0 s0].
  intros [= <- <- <-]. auto.
Qed.

Lemma call_FXnum_inv (v : value) (f : Family) (s s' : EngineState)
  (x : Number) (t : list event) :
  call_FXnum v f s = (Return x, t, s') ->
  FXnum v f = Ok x /\ t = [EvNum v f] /\ s' = s.
Proof.
  unfold call_FXnum. intros H.
  apply bind_return_inv in H as (a & t1 & t2 & s1 & He & Hr & ->).
  apply emit_inv in He as [-> ->].
  apply of_result_inv in Hr as (-> & -> & ->). auto.
Qed.

Lemma call_unary_inv (op : unop) (x : Number) (s s' : EngineState)
  (y : Number) (t : list event) :
  call_unary op x s = (Return y, t, s') ->
  unary op x s = (Ok y, s') /\ t = [EvUnary op x].
Proof.
  unfold call_unary. intros H.
  apply bind_return_inv in H as (a & t1 & t2 & s1 & He & Hr & ->).
  apply emit_inv in He as [-> ->].
  apply of_engine_inv in Hr as (-> & ->). auto.
Qed.

Lemma call_binary_inv (op : binop) (a : Number) (b : operand)
  (s s' : EngineState) (y : Number) (t : list event) :
  call_binary op a b s = (Return y, t, s') ->
  binary op a b = Ok y /\ t = [EvBinary op a b] /\ s' = s.
Proof.
  unfold call_binary. intros H.
  apply bind_return_inv in H as (u & t1 & t2 & s1 & He & Hr & ->).
  apply emit_inv in He as [-> ->].
  apply of_result_inv in Hr as (-> & -> & ->). auto.
Qed.

Lemma call_constant_inv (c : constName) (f : Family) (s s' : EngineState)
  (y : Number) (t : list event) :
  call_constant c f s = (Return y, t, s') ->
  constant c f s = (Ok y, s') /\ t = [EvConst c f].
Proof.
  unfold call_constant. intros H.
  apply bind_return_inv in H as (a & t1 & t2 & s1 & He & Hr & ->).
  apply emit_inv in He as [-> ->].
  apply of_engine_inv in Hr as (-> & ->). auto.
Qed.

(** The square root leaves the engine state as it was. *)
Lemma unary_sqrt_state (x y : Number) (s s' : EngineState) :
  unary Sqrt x s = (Ok y, s') -> s' = s.
Proof. simpl. now intros [= _ <-]. Qed.

Lemma basicDemo_step_inv (r : Z) (s s' : EngineState) (t : list event) :
  basicDemo_step r s = (Return tt, t, s') -> basic_block r t.
Proof.
  unfold basicDemo_step, print. intros H.
  apply bind_return_inv in H as (fam & t1 & ? & s1 & Hfam & H & ->).
  apply call_FXfamily_inv in Hfam as [Hfam ->].
  apply bind_return_inv in H as ([] & ? & ? & ? & Hp1 & H & ->).
  apply emit_inv in Hp1 as [-> ->].
  apply bind_return_inv in H as (two & ? & ? & ? & Htwo & H & ->).
  apply call_FXnum_inv in Htwo as (Htwo & -> & ->).
  apply bind_return_inv in H as (rt & ? & ? & s2 & Hrt & H & ->).
  apply call_unary_inv in Hrt as [Hrt ->].
  pose proof (unary_sqrt_state _ _ _ _ Hrt) as ->.
  apply bind_return_inv in H as ([] & ? & ? & ? & Hp2 & H & ->).
  apply emit_inv in Hp2 as [-> ->].
  apply bind_return_inv in H as (sq & ? & ? & ? & Hsq & H & ->).
  apply call_binary_inv in Hsq as (Hsq & -> & ->).
  apply bind_return_inv in H as ([] & ? & ? & ? & Hp3 & H & ->).
  apply emit_inv in Hp3 as [-> ->].
  apply bind_return_inv in H as (e & ? & ? & s3 & He & H & ->).
  apply call_constant_inv in He as [He ->].
  apply bind_return_inv in H as ([] & ? & ? & ? & Hp4 & H & ->).
  apply emit_inv in Hp4 as [-> ->].
  apply emit_inv in H as [-> ->].
  do 3 eexists. exists fam, two, rt, sq, e. repeat split; eassumption.
Qed.

End CallsReturn.

Lemma for_each_return_inv {A : Type} (l : list A) (body : A -> M unit)
  (s s' : EngineState) (t : list event) :
  for_each l body s = (Return tt, t, s') ->
  exists ts : list (list event),
    Forall2 (fun v tv => exists s1 s2, body v s1 = (Return tt, tv, s2)) l ts
    /\ t = concat ts.
Proof.
  revert s t. induction l as [| v l IH]; intros s t; simpl.
  - unfold ret. intros [= <- <-]. exists []. split; [constructor | reflexivity].
  - intros H.
    apply bind_return_inv in H as ([] & t1 & t2 & s1 & Hv & Hl & ->).
    apply IH in Hl as (ts & Hts & ->).
    exists (t1 :: ts). split; [| reflexivity].
    constructor; [eauto | exact Hts].
Qed.

(** C6: the basic demo prints roots and exponents at several precisions.
    When it returns, its trace is one block for each of the resolutions 8,
    32, 80 and 274, in this order: a family is built from the resolution,
    the root of 2 is computed under it and printed, the root is multiplied
    by itself and the product printed, and the family's constant [exp1]
    is fetched and printed. *)
Theorem basicDemo_prints_roots_and_exp1 {S : Solvers} (s s' : EngineState)
  (t : list event) :
  basicDemo s = (Return tt, t, s') ->
  exists blocks : list (list event),
    Forall2 basic_block [8; 32; 80; 274] blocks
    /\ t = concat blocks.
Proof.
  intros H. unfold basicDemo in H.
  apply for_each_return_inv in H as (ts & Hts & ->).
  exists ts. split; [| reflexivity].
  eapply Forall2_impl; [exact Hts |].
  intros r tv (s1 & s2 & Hr). eapply basicDemo_step_inv; eauto.
Qed.

Lemma basicDemo_prints_roots_and_exp1_witness :
  let run := basicDemo (S := Solver.solvers) initial_state in
  run = (Return tt, trace_of run, state_of run)
  /\ exists blocks : list (list event),
       Forall2 (basic_block (S := Solver.solvers)) [8; 32; 80; 274] blocks
       /\ trace_of run = concat blocks.
Proof.
  intros run.
  assert (H : run = (Return tt, trace_of run, state_of run))
    by (vm_compute; reflexivity).
  split; [exact H |].
  exact (basicDemo_prints_roots_and_exp1 (S := Solver.solvers)
           initial_state (state_of run) (trace_of run) H).
Defined.

(** ** The constants the harness asks for *)

Section ConstantRequests.
Context {S : Solvers}.

Lemma call_rbinary_inv (op : binop) (l : literal) (b : Number)
  (s s' : EngineState) (y : Number) (t : list event) :
  call_rbinary op l b s = (Return y, t, s') ->
  rbinary op l b = Ok y /\ t = [EvRBinary op l b] /\ s' = s.
Proof.
  unfold call_rbinary. intros H.
  apply bind_return_inv in H as (u & t1 & t2 & s1 & He & Hr & ->).
  apply emit_inv in He as [-> ->].
  apply of_result_inv in Hr as (-> & -> & ->). auto.
Qed.

Lemma ret_inv {A : Type} (a b : A) (s s' : EngineState) (t : list event) :
  ret a s = (Return b, t, s') -> b = a /\ t = [] /\ s' = s.
Proof. unfold ret. intros [= <- <- <-]. auto. Qed.

End ConstantRequests.

Ltac inv_call H :=
  first [ apply call_FXfamily_inv in H as [H ->]
        | apply call_FXnum_inv in H as (H & -> & ->)
        | apply call_unary_inv in H as [H ->]
        | apply call_binary_inv in H as (H & -> & ->)
        | apply call_rbinary_inv in H as (H & -> & ->)
        | apply call_constant_inv in H as [H ->]
        | apply emit_inv in H as [-> ->] ].

(** Splits a returning [x <- call ;; rest] into the call and the rest. *)
Ltac inv_bind H x Hx :=
  apply bind_return_inv in H as (x & ? & ? & ? & Hx & H & ->);
  inv_call Hx.

Section ConstantRequestsOfDemos.
Context {S : Solvers}.

Lemma lostbits_requests (x x_acc y : Number) (s s' : EngineState)
  (t : list event) :
  lostbits x x_acc s = (Return y, t, s') ->
  const_requests t = [(Clog2, family x_acc)].
Proof.
  unfold lostbits. intros H.
  inv_bind H xa Hxa. inv_bind H eps Heps. inv_bind H a Ha.
  inv_bind H l Hl. inv_bind H ln2 Hln2. inv_bind H q Hq.
  inv_call H. reflexivity.
Qed.

Lemma const_requests_app (t1 t2 : list event) :
  const_requests (t1 ++ t2) = const_requests t1 ++ const_requests t2.
Proof.
  induction t1 as [| e t1 IH]; simpl; [reflexivity |].
  destruct e; simpl; now rewrite IH.
Qed.

Lemma piAccuracy_point_requests (bits : Z) (s s' : EngineState)
  (r : Z * Number * Number) (t : list event) :
  piAccuracy_point bits s = (Return r, t, s') ->
  let (fam_acc, s1) := FXfamily (bits + 40) None s in
  let fam := fst (FXfamily bits None s1) in
  const_requests t
  = [(Cpi, fam_acc); (Cpi, fam); (Clog2, fam_acc); (Clog2, fam_acc)].
Proof.
  unfold piAccuracy_point. intros H.
  inv_bind H fam_acc Hfa. rewrite Hfa.
  inv_bind H fam Hfam. rewrite Hfam. simpl fst.
  inv_bind H pi_true Hpt. inv_bind H pi_family Hpf.
  inv_bind H one Hone. inv_bind H a Ha. inv_bind H atan Hatan.
  apply bind_return_inv in H as (l1 & t1 & ? & ? & Hl1 & H & ->).
  apply bind_return_inv in H as (l2 & t2 & ? & ? & Hl2 & H & ->).
  apply ret_inv in H as (-> & -> & ->).
  apply lostbits_requests in Hl1, Hl2.
  apply constant_family in Hpt.
  simpl. rewrite !const_requests_app, Hl1, Hl2, Hpt. reflexivity.
Qed.

Lemma basicDemo_step_requests (r : Z) (s s' : EngineState)
  (t : list event) :
  basicDemo_step r s = (Return tt, t, s') ->
  const_requests t = [(Cexp1, fst (FXfamily r None s))].
Proof.
  unfold basicDemo_step, print. intros H.
  inv_bind H fam Hfam. rewrite Hfam.
  inv_bind H u1 Hu1. inv_bind H two Htwo. inv_bind H rt Hrt.
  inv_bind H u2 Hu2. inv_bind H sq Hsq. inv_bind H u3 Hu3.
  inv_bind H e He. inv_bind H u4 Hu4. inv_call H.
  reflexivity.
Qed.

End ConstantRequestsOfDemos.

(** C2: two successive requests for one family constant give the same
    Number, and the second computes nothing: once a request for [pi],
    [exp1] or [log2] has returned, the next one on that family returns the
    bit-identical Number and leaves the engine state, with its count of
    computations, as it was.  The harness takes its constants from the
    family object: [family.exp1] in [basicDemo], [fam_acc.pi], [fam.pi]
    and [fam_acc.log2] in [piAccuracyPlot], on the families it has just
    built. *)
Theorem family_constant_is_cached {S : Solvers} (c : constName) (f : Family)
  (s s1 : EngineState) (n1 : Number) :
  constant c f s = (Ok n1, s1) ->
  constant c f s1 = (Ok n1, s1)
  /\ computations (snd (constant c f s1)) = computations s1
  /\ call_constant c f s1 = (Return n1, [EvConst c f], s1)
  /\ (forall (r : Z) (s0 s' : EngineState) (t : list event),
        basicDemo_step r s0 = (Return tt, t, s') ->
        const_requests t = [(Cexp1, fst (FXfamily r None s0))])
  /\ (forall (bits : Z) (s0 s' : EngineState) (r : Z * Number * Number)
        (t : list event),
        piAccuracy_point bits s0 = (Return r, t, s') ->
        let (fam_acc, s2) := FXfamily (bits + 40) None s0 in
        let fam := fst (FXfamily bits None s2) in
        const_requests t
        = [(Cpi, fam_acc); (Cpi, fam); (Clog2, fam_acc); (Clog2, fam_acc)]).
Proof.
  intros H. pose proof (constant_twice _ _ _ _ _ H) as H2.
  split; [exact H2 |]. split; [now rewrite H2 |].
  split; [| split].
  - unfold call_constant, bind, emit, of_engine. now rewrite H2.
  - apply basicDemo_step_requests.
  - apply piAccuracy_point_requests.
Qed.

Lemma family_constant_is_cached_witness :
  let f := mkFamily 0 8 64 in
  let s := snd (FXfamily (S := Solver.solvers) 8 None initial_state) in
  let s1 := snd (constant (S := Solver.solvers) Cpi f s) in
  let n1 := mkNumber 804 f in
  constant (S := Solver.solvers) Cpi f s = (Ok n1, s1)
  /\ computations s = O
  /\ computations s1 = 1%nat
  /\ constant (S := Solver.solvers) Cpi f s1 = (Ok n1, s1).
Proof.
  intros f s s1 n1.
  assert (H : constant (S := Solver.solvers) Cpi f s = (Ok n1, s1))
    by (vm_compute; reflexivity).
  split; [exact H |]. split; [reflexivity |]. split; [reflexivity |].
  exact (proj1 (family_constant_is_cached (S := Solver.solvers)
                  Cpi f s s1 n1 H)).
Defined.

(** ** Building families *)

Section Families.
Context {S : Solvers}.

Lemma FXnum_zero (f : Family) (l : literal) :
  0 < resolution f + integerBits f ->
  l = VInt 0 \/ l = VFloat 0 0 ->
  FXnum (VLit l) f = Ok (mkNumber 0 f).
Proof.
  intros Hw Hl. unfold FXnum.
  assert (Hz : scale_value f (VLit l) = 0).
  { destruct Hl as [-> | ->]; simpl.
    - apply Z.shiftl_0_l.
    - destruct (0 <=? 0 + resolution f); [lia |].
      now destruct (2 ^ _). }
  rewrite Hz. apply checked_ok.
  unfold in_range, bit_length. simpl. now apply Z.ltb_lt.
Qed.

Lemma FXnum_two (f : Family) :
  0 < resolution f ->
  2 < integerBits f ->
  FXnum (VLit (VInt 2)) f = Ok (mkNumber (2 ^ (resolution f + 1)) f).
Proof.
  intros Hres Hib. unfold FXnum. simpl.
  rewrite Z.shiftl_mul_pow2 by lia.
  replace (2 * 2 ^ resolution f) with (2 ^ (resolution f + 1))
    by (rewrite Z.pow_add_r by lia; lia).
  apply checked_ok. apply in_range_spec. split; [| lia].
  rewrite Z.abs_eq by (apply Z.pow_nonneg; lia).
  apply Z.pow_lt_mono_r; lia.
Qed.

Lemma basicDemo_families :
  holds (families_built built_from_resolution) (fun _ => True) basicDemo.
Proof.
  apply holds_for_each. intros resolution Hin.
  unfold basicDemo_step, print.
  eapply holds_bind.
  - apply call_FXfamily_holds. split; [reflexivity | exact Hin].
  - intros fam _. repeat hstep. hlast.
Qed.

Lemma overflow_loop_families (P : Z -> option Z -> Prop) (fuel : nat)
  (intsize : Z) (x : Number) :
  holds (families_built P) (fun _ => True) (overflow_loop fuel intsize x).
Proof.
  revert x. induction fuel as [| fuel IH]; intros x; simpl.
  - apply holds_out_of_fuel.
  - eapply holds_bind.
    + apply holds_try. call_holds.
    + intros [ex |] _; [| unfold print; hlast].
      hstep. apply IH.
Qed.

Lemma overflowDemo_families (fuel : nat) :
  holds (families_built built_with_width) (fun _ => True)
        (overflowDemo fuel).
Proof.
  unfold overflowDemo, print. hstep.
  eapply holds_bind; [| intros ? ?; hlast].
  apply holds_for_each. intros intsize Hin.
  unfold overflowDemo_step.
  eapply holds_bind.
  - apply call_FXfamily_holds. split; [reflexivity | eauto].
  - intros fam _. hstep. apply overflow_loop_families.
Qed.

End Families.

Lemma trace_bind_prefix {A B : Type} (m : M A) (k : A -> M B)
  (s : EngineState) :
  exists t2 : list event, trace_of (bind m k s) = trace_of (m s) ++ t2.
Proof.
  unfold bind, trace_of.
  destruct (m s) as [[[a | e |] t1] s1]; simpl;
    try (exists []; now rewrite app_nil_r).
  destruct (k a s1) as [[r t2] s2]; simpl. eauto.
Qed.

(** The trace of [x <- m ;; k] starts with the trace of [m]. *)
Ltac peel :=
  match goal with
  | |- context [trace_of (bind ?m ?k ?s)] =>
      destruct (trace_bind_prefix m k s) as [? ->]
  end.

Section FirstFamilies.
Context {S : Solvers}.

Lemma call_FXfamily_trace (res : Z) (ib : option Z) (s : EngineState) :
  trace_of (call_FXfamily res ib s) = [EvFamily res ib].
Proof.
  unfold call_FXfamily, bind, emit, trace_of.
  now destruct (FXfamily res ib s).
Qed.

Lemma emit_bind {B : Type} (e : event) (k : unit -> M B) (s : EngineState) :
  bind (emit e) k s
  = (outcome_of (k tt s), e :: trace_of (k tt s), state_of (k tt s)).
Proof.
  unfold bind, emit. now destruct (k tt s) as [[r t] s'].
Qed.

Lemma basicDemo_first_family (s : EngineState) :
  exists t : list event, trace_of (basicDemo s) = EvFamily 8 None :: t.
Proof.
  unfold basicDemo. cbn [for_each]. peel.
  unfold basicDemo_step. peel.
  rewrite call_FXfamily_trace. simpl. eauto.
Qed.

Lemma overflowDemo_first_family (fuel : nat) (s : EngineState) :
  exists t : list event,
    trace_of (overflowDemo fuel s)
    = EvPrint [PStr "=== "; PInt 20; PStr "-bit fractional part ==="]
      :: EvFamily 20 (Some 4) :: t.
Proof.
  unfold overflowDemo, print.
  rewrite emit_bind.
  unfold trace_of at 1. cbn [fst snd]. peel.
  cbn [for_each]. peel.
  unfold overflowDemo_step. peel.
  rewrite call_FXfamily_trace. simpl. eauto.
Qed.

End FirstFamilies.

(** *** Which integers fit a family *)

Lemma FXnum_int_fits (f : Family) (z : Z) :
  0 < resolution f ->
  0 < integerBits f ->
  (exists x : Number, FXnum (VLit (VInt z)) f = Ok x)
  <-> Z.abs z < 2 ^ (integerBits f - 1).
Proof.
  intros Hres Hib.
  assert (Hscale : Z.abs (Z.shiftl z (resolution f))
                   = Z.abs z * 2 ^ resolution f).
  { rewrite Z.shiftl_mul_pow2, Z.abs_mul by lia.
    f_equal. apply Z.abs_eq, Z.pow_nonneg. lia. }
  assert (Hpow : 2 ^ (resolution f + integerBits f - 1)
                 = 2 ^ (integerBits f - 1) * 2 ^ resolution f).
  { rewrite <- Z.pow_add_r by lia. f_equal. lia. }
  assert (Hpos : 0 < 2 ^ resolution f) by (apply Z.pow_pos_nonneg; lia).
  unfold FXnum. cbn [scale_value scale_literal]. split.
  - intros [x Hx]. apply checked_inv in Hx as [_ Hr].
    apply in_range_spec in Hr as [Hr _].
    rewrite Hscale, Hpow in Hr.
    now apply Z.mul_lt_mono_pos_r in Hr.
  - intros Hz. eexists. apply checked_ok, in_range_spec.
    split; [| lia]. rewrite Hscale, Hpow.
    now apply Z.mul_lt_mono_pos_r.
Qed.

(** *** The basic demo on the solvers of the specification *)

Lemma outcome_bind_return {A B : Type} (m : M A) (k : A -> M B)
  (s s1 : EngineState) (a : A) (t1 : list event) :
  m s = (Return a, t1, s1) ->
  outcome_of (bind m k s) = outcome_of (k a s1).
Proof. intros H. now rewrite (bind_return _ _ _ _ _ _ H). Qed.

Lemma outcome_emit_bind {B : Type} (e : event) (k : unit -> M B)
  (s : EngineState) :
  outcome_of (bind (emit e) k s) = outcome_of (k tt s).
Proof. now rewrite emit_bind. Qed.

Lemma for_each_returns {A : Type} (l : list A) (body : A -> M unit) :
  (forall v s, In v l -> outcome_of (body v s) = Return tt) ->
  forall s, outcome_of (for_each l body s) = Return tt.
Proof.
  induction l as [| v l IH]; intros H s; [reflexivity |].
  cbn [for_each].
  specialize (H v s (or_introl eq_refl)) as Hv.
  unfold outcome_of in Hv.
  destruct (body v s) as [[r t1] s1] eqn:Hb. cbn [fst] in Hv. subst r.
  rewrite (outcome_bind_return _ _ _ _ _ _ Hb).
  apply IH. intros w s0 Hw. apply H. now right.
Qed.

Section RunCalls.
Context {S : Solvers}.

Lemma call_FXfamily_run (res : Z) (ib : option Z) (s : EngineState) :
  call_FXfamily res ib s
  = (Return (fst (FXfamily res ib s)), [EvFamily res ib],
     snd (FXfamily res ib s)).
Proof.
  unfold call_FXfamily, bind, emit. now destruct (FXfamily res ib s).
Qed.

Lemma call_FXnum_run (v : value) (f : Family) (x : Number)
  (s : EngineState) :
  FXnum v f = Ok x -> call_FXnum v f s = (Return x, [EvNum v f], s).
Proof. intros H. unfold call_FXnum, bind, emit. now rewrite H. Qed.

Lemma call_binary_run (op : binop) (a : Number) (b : operand) (y : Number)
  (s : EngineState) :
  binary op a b = Ok y ->
  call_binary op a b s = (Return y, [EvBinary op a b], s).
Proof. intros H. unfold call_binary, bind, emit. now rewrite H. Qed.

Lemma call_sqrt_run (x y : Number) (s : EngineState) :
  rbind (sqrt_solver (family x) (scaledValue x)) (checked (family x))
  = Ok y ->
  call_unary Sqrt x s = (Return y, [EvUnary Sqrt x], s).
Proof.
  intros H. unfold call_unary, bind, emit, of_engine. cbn [unary].
  now rewrite H.
Qed.

Lemma cache_of_fresh (res : Z) (ib : option Z) (s : EngineState) :
  cache_of (fst (FXfamily res ib s)) (snd (FXfamily res ib s)) = ∅.
Proof. unfold cache_of; simpl. now rewrite lookup_insert_eq. Qed.

(** On a family whose cache is empty a constant is computed, and the
    request returns when the value is in range. *)
Lemma call_constant_fresh (c : constName) (f : Family) (s : EngineState)
  (v : Z) :
  cache_of f s = ∅ ->
  validate f (Z.shiftr (const_solver c (resolution f + guardBits)) guardBits)
  = Ok v ->
  outcome_of (call_constant c f s)
  = Return (mkNumber
              (Z.shiftr (const_solver c (resolution f + guardBits))
                        guardBits) f).
Proof.
  intros Hc Hv.
  unfold call_constant, bind, emit, of_engine, constant, outcome_of.
  rewrite Hc, lookup_empty, Hv. reflexivity.
Qed.

End RunCalls.

(** One pure step of the basic demo: compute it, and go on with its value. *)
Ltac settle H := vm_compute in H; first [discriminate | injection H as H; subst].

Ltac run_pure H :=
  match goal with
  | |- context [call_FXnum ?v ?f] =>
      destruct (FXnum v f) as [? | ?] eqn:H;
      [ rewrite (outcome_bind_return _ _ _ _ _ _ (call_FXnum_run _ _ _ _ H))
      | ];
      settle H
  | |- context [call_unary Sqrt ?x] =>
      destruct (rbind (sqrt_solver (Solvers := Solver.solvers)
                         (family x) (scaledValue x))
                      (checked (family x))) as [? | ?] eqn:H;
      [ rewrite (outcome_bind_return _ _ _ _ _ _
                   (call_sqrt_run (S := Solver.solvers) _ _ _ H))
      | ];
      settle H
  | |- context [call_binary ?op ?a (ONum ?b)] =>
      destruct (binary op a (ONum b)) as [? | ?] eqn:H;
      [ rewrite (outcome_bind_return _ _ _ _ _ _
                   (call_binary_run _ _ _ _ _ H))
      | ];
      unfold binary, promote in H; cbn [family] in H;
      rewrite Family_eqb_refl in H;
      settle H
  end.

Lemma basicDemo_step_returns (r : Z) (s : EngineState) :
  In r [8; 32; 80; 274] ->
  outcome_of (basicDemo_step (S := Solver.solvers) r s) = Return tt.
Proof.
  intros Hin. unfold basicDemo_step, print.
  rewrite (outcome_bind_return _ _ _ _ _ _
             (call_FXfamily_run (S := Solver.solvers) r None s)).
  pose proof (cache_of_fresh (S := Solver.solvers) r None s) as Hcache.
  cbn [FXfamily fst snd from_option default_integerBits Solver.solvers]
    in Hcache |- *.
  set (s1 := mkState _ _ _) in *. clearbody s1.
  rewrite outcome_emit_bind.
  destruct Hin as [<- | [<- | [<- | [<- | []]]]];
    run_pure H2;
    run_pure Hrt;
    rewrite outcome_emit_bind;
    run_pure Hsq;
    rewrite outcome_emit_bind;
    match goal with
    | |- context [call_constant Cexp1 ?f] =>
        destruct (validate f
                    (Z.shiftr
                       (const_solver (Solvers := Solver.solvers) Cexp1
                          (resolution f
                           + guardBits (Solvers := Solver.solvers)))
                       (guardBits (Solvers := Solver.solvers))))
          as [v | e] eqn:Hv;
        [| vm_compute in Hv; discriminate];
        pose proof (call_constant_fresh (S := Solver.solvers)
                      Cexp1 f s1 v Hcache Hv) as He
    end;
    unfold outcome_of in He |- *;
    unfold bind at 1;
    destruct (call_constant Cexp1 _ s1) as [[o t1] s2];
    cbn [fst] in He; subst o; reflexivity.
Qed.

Lemma basicDemo_returns (s : EngineState) :
  outcome_of (basicDemo (S := Solver.solvers) s) = Return tt.
Proof.
  unfold basicDemo. apply for_each_returns.
  intros r s0 Hin. now apply basicDemo_step_returns.
Qed.

(** C8: a Family can be built from a resolution alone, the integer width
    then taking the default, or from a resolution and an integer width.
    Whatever the solvers, with positive widths both forms give a family
    of the resolution asked for, with an empty constants cache, and the
    integers that can be made a Number under it are just those below
    [2^(integerBits - 1)] in magnitude; so the literal 2 of the harness
    needs a default of 3 bits or more.  The harness uses both forms:
    every family of [basicDemo] is built from a resolution alone, the
    first from 8; every family of [overflowDemo] is built from 20 and one
    of the widths 4, 8, 16, 32, the first from 4.  With the default of
    the engine modelled here, 64 bits, both demos run through on the
    families they build, from any engine state. *)
Theorem family_from_resolution_alone (k : nat) (s : EngineState) :
  (forall (S : Solvers) (res ib z : Z) (s0 : EngineState),
     0 < res ->
     0 < ib ->
     0 < default_integerBits ->
     let f1 := fst (FXfamily res None s0) in
     let f2 := fst (FXfamily res (Some ib) s0) in
     (resolution f1 = res
      /\ integerBits f1 = default_integerBits
      /\ cache_of f1 (snd (FXfamily res None s0)) = ∅
      /\ FXnum (VLit (VInt 0)) f1 = Ok (mkNumber 0 f1)
      /\ ((exists x, FXnum (VLit (VInt z)) f1 = Ok x)
          <-> Z.abs z < 2 ^ (default_integerBits - 1))
      /\ ((exists x, FXnum (VLit (VInt 2)) f1 = Ok x)
          <-> 2 < default_integerBits))
     /\ (resolution f2 = res
         /\ integerBits f2 = ib
         /\ cache_of f2 (snd (FXfamily res (Some ib) s0)) = ∅
         /\ FXnum (VLit (VFloat 0 0)) f2 = Ok (mkNumber 0 f2)
         /\ ((exists x, FXnum (VLit (VInt z)) f2 = Ok x)
             <-> Z.abs z < 2 ^ (ib - 1))))
  /\ (forall (S : Solvers) (s0 : EngineState),
        Forall (families_built built_from_resolution)
               (trace_of (basicDemo s0))
        /\ exists t, trace_of (basicDemo s0) = EvFamily 8 None :: t)
  /\ (forall (S : Solvers) (fuel : nat) (s0 : EngineState),
        Forall (families_built built_with_width)
               (trace_of (overflowDemo fuel s0))
        /\ exists t,
             trace_of (overflowDemo fuel s0)
             = EvPrint [PStr "=== "; PInt 20;
                        PStr "-bit fractional part ==="]
               :: EvFamily 20 (Some 4) :: t)
  /\ default_integerBits (Solvers := Solver.solvers) = 64
  /\ outcome_of (basicDemo (S := Solver.solvers) s) = Return tt
  /\ outcome_of (overflowDemo (S := Solver.solvers) (300 + k) s)
     = Return tt.
Proof.
  split; [| split; [| split; [| split; [| split]]]].
  - intros S res ib z s0 Hres Hib Hdef f1 f2. split.
    + split; [reflexivity |]. split; [reflexivity |].
      split; [apply cache_of_fresh |].
      split; [apply FXnum_zero; [simpl; lia | now left] |].
      split; [apply (FXnum_int_fits f1 z); assumption |].
      rewrite (FXnum_int_fits f1 2) by assumption.
      cbn [integerBits f1 FXfamily fst from_option id].
      change (Z.abs 2) with (2 ^ 1). split.
      * intros H. apply Z.pow_lt_mono_r_iff in H; lia.
      * intros H. apply Z.pow_lt_mono_r; lia.
    + split; [reflexivity |]. split; [reflexivity |].
      split; [apply cache_of_fresh |].
      split; [apply FXnum_zero; [simpl; lia | now right] |].
      apply (FXnum_int_fits f2 z); assumption.
  - intros S s0.
    split; [apply basicDemo_families | apply basicDemo_first_family].
  - intros S fuel s0.
    split; [apply overflowDemo_families | apply overflowDemo_first_family].
  - reflexivity.
  - apply basicDemo_returns.
  - vm_compute. reflexivity.
Qed.

(** * Further properties of the harness *)

(** ** Demos selected by name *)

Lemma in_sequence_cons (d : M unit) (ds : list (M unit)) (s : EngineState) :
  in_sequence (d :: ds) s = bind d (fun _ => in_sequence ds) s.
Proof. reflexivity. Qed.

Lemma lookup_each_in_sequence (reg : list (string * M unit))
  (names : list string) (ds : list (M unit)) (s : EngineState) :
  registered reg names ds ->
  for_each names
    (fun demoname =>
       match od_get demoname reg with
       | Some demo => demo
       | None => raise (KeyError demoname)
       end) s
  = in_sequence ds s.
Proof.
  intros H. revert s. induction H as [| name d names ds Hd _ IH]; intros s.
  - reflexivity.
  - rewrite in_sequence_cons. cbn [for_each]. rewrite Hd.
    unfold bind. destruct (d s) as [[[[] | e |] t1] s1]; try reflexivity.
    now rewrite IH.
Qed.

(** The demos named on the command line run in the order they are named,
    a demo named twice running twice: [main] returns just when the demos
    the names stand for return in turn, each starting in the state the
    one before it left, and its trace is then their traces in the order
    of the names. *)
Theorem named_demos_run_in_the_order_given (reg : list (string * M unit))
  (names : list string) (ds : list (M unit)) (s s' : EngineState)
  (t : list event) :
  names <> [] ->
  registered reg names ds ->
  run_demos reg (mkNamespace false names) s = (Return tt, t, s')
  <-> runs_in_turn ds s t s'.
Proof.
  intros Hne H.
  rewrite <- in_sequence_runs.
  replace (run_demos reg (mkNamespace false names) s)
    with (in_sequence ds s); [reflexivity |].
  unfold run_demos. cbn [all demos orb].
  destruct names as [| n names]; [congruence |].
  cbn [is_empty]. symmetry. now apply lookup_each_in_sequence.
Qed.

Lemma named_demos_run_in_the_order_given_witness :
  let reg := registry (S := Solver.solvers) false 300 in
  let names := ["overflow"; "basic"; "overflow"] in
  let ds := [overflowDemo (S := Solver.solvers) 300;
             basicDemo (S := Solver.solvers);
             overflowDemo (S := Solver.solvers) 300] in
  let r1 := overflowDemo (S := Solver.solvers) 300 initial_state in
  let r2 := basicDemo (S := Solver.solvers) (state_of r1) in
  let r3 := overflowDemo (S := Solver.solvers) 300 (state_of r2) in
  (names <> [] /\ registered reg names ds)
  /\ runs_in_turn ds initial_state
       (trace_of r1 ++ trace_of r2 ++ trace_of r3 ++ []) (state_of r3)
  /\ run_demos reg (mkNamespace false names) initial_state
     = (Return tt, trace_of r1 ++ trace_of r2 ++ trace_of r3 ++ [],
        state_of r3).
Proof.
  intros reg names ds r1 r2 r3.
  assert (Hne : names <> []) by discriminate.
  assert (Hreg : registered reg names ds) by (repeat constructor).
  assert (H1 : overflowDemo (S := Solver.solvers) 300 initial_state
               = (Return tt, trace_of r1, state_of r1))
    by (vm_compute; reflexivity).
  assert (H2 : basicDemo (S := Solver.solvers) (state_of r1)
               = (Return tt, trace_of r2, state_of r2))
    by (vm_compute; reflexivity).
  assert (H3 : overflowDemo (S := Solver.solvers) 300 (state_of r2)
               = (Return tt, trace_of r3, state_of r3))
    by (vm_compute; reflexivity).
  assert (Hruns : runs_in_turn ds initial_state
                    (trace_of r1 ++ trace_of r2 ++ trace_of r3 ++ [])
                    (state_of r3))
    by exact (runs_next _ _ _ _ _ _ _ H1
                (runs_next _ _ _ _ _ _ _ H2
                   (runs_next _ _ _ _ _ _ _ H3 (runs_none _)))).
  split; [exact (conj Hne Hreg) |].
  split; [exact Hruns |].
  exact (proj2 (named_demos_run_in_the_order_given reg names ds
                  initial_state (state_of r3) _ Hne Hreg) Hruns).
Defined.

Lemma bind_assoc {A B C : Type} (m : M A) (k : A -> M B) (h : B -> M C)
  (s : EngineState) :
  bind (bind m k) h s = bind m (fun a => bind (k a) h) s.
Proof.
  unfold bind.
  destruct (m s) as [[[a | e |] t1] s1]; try reflexivity.
  destruct (k a s1) as [[[b | e |] t2] s2]; try reflexivity.
  destruct (h b s2) as [[r t3] s3]. now rewrite app_assoc.
Qed.

Lemma bind_ext {A B : Type} (m : M A) (k k' : A -> M B) (s : EngineState) :
  (forall a s1, k a s1 = k' a s1) -> bind m k s = bind m k' s.
Proof.
  intros H. unfold bind.
  destruct (m s) as [[[a | e |] t1] s1]; try reflexivity.
  now rewrite H.
Qed.

Lemma for_each_app {A : Type} (l1 l2 : list A) (body : A -> M unit)
  (s : EngineState) :
  for_each (l1 ++ l2) body s
  = bind (for_each l1 body) (fun _ => for_each l2 body) s.
Proof.
  revert s. induction l1 as [| v l1 IH]; intros s; cbn [for_each app].
  - unfold bind, ret.
    destruct (for_each l2 body s) as [[r t] s']. reflexivity.
  - rewrite bind_assoc. apply bind_ext. intros _ s1. apply IH.
Qed.

(** A name that is not registered ends [main] with [KeyError], after the
    demos named before it have run and before any named after it. *)
Theorem unknown_name_raises_after_the_demos_before_it
  (reg : list (string * M unit)) (pre rest : list string)
  (ds : list (M unit)) (name : string) (s s1 : EngineState)
  (t : list event) :
  registered reg pre ds ->
  od_get name reg = None ->
  in_sequence ds s = (Return tt, t, s1) ->
  run_demos reg (mkNamespace false (pre ++ name :: rest)) s
  = (Raise (KeyError name), t, s1).
Proof.
  intros Hreg Hnone Hrun. unfold run_demos. cbn [all demos orb].
  replace (is_empty (pre ++ name :: rest)) with false
    by now destruct pre.
  rewrite for_each_app.
  rewrite (bind_return _ _ s s1 tt t).
  - cbn [for_each]. rewrite Hnone.
    unfold bind, raise, outcome_of, trace_of, state_of. simpl.
    now rewrite app_nil_r.
  - rewrite (lookup_each_in_sequence reg pre ds s Hreg). exact Hrun.
Qed.

Lemma unknown_name_raises_after_the_demos_before_it_witness :
  let reg := registry (S := Solver.solvers) false 300 in
  let run := in_sequence [overflowDemo (S := Solver.solvers) 300]
               initial_state in
  (registered reg ["overflow"] [overflowDemo (S := Solver.solvers) 300]
   /\ od_get "piplot" reg = None
   /\ run = (Return tt, trace_of run, state_of run))
  /\ run_demos reg (mkNamespace false ["overflow"; "piplot"; "basic"])
       initial_state
     = (Raise (KeyError "piplot"), trace_of run, state_of run).
Proof.
  intros reg run.
  assert (Hreg : registered reg ["overflow"]
                   [overflowDemo (S := Solver.solvers) 300])
    by (repeat constructor).
  assert (Hrun : run = (Return tt, trace_of run, state_of run))
    by (vm_compute; reflexivity).
  split; [exact (conj Hreg (conj eq_refl Hrun)) |].
  exact (unknown_name_raises_after_the_demos_before_it reg ["overflow"]
           ["basic"] _ "piplot" initial_state (state_of run) (trace_of run)
           Hreg eq_refl Hrun).
Defined.

(** A demo that raises ends [main] with its exception: the demos named
    after it do not run. *)
Theorem raising_demo_ends_main (reg : list (string * M unit))
  (pre rest : list string) (ds : list (M unit)) (name : string)
  (d : M unit) (s s1 s2 : EngineState) (t t2 : list event) (e : exn) :
  registered reg pre ds ->
  od_get name reg = Some d ->
  in_sequence ds s = (Return tt, t, s1) ->
  d s1 = (Raise e, t2, s2) ->
  run_demos reg (mkNamespace false (pre ++ name :: rest)) s
  = (Raise e, t ++ t2, s2).
Proof.
  intros Hreg Hd Hrun Hraise. unfold run_demos. cbn [all demos orb].
  replace (is_empty (pre ++ name :: rest)) with false
    by now destruct pre.
  rewrite for_each_app.
  rewrite (bind_return _ _ s s1 tt t).
  - cbn [for_each]. rewrite Hd.
    rewrite (bind_raise _ _ _ _ _ _ Hraise). reflexivity.
  - rewrite (lookup_each_in_sequence reg pre ds s Hreg). exact Hrun.
Qed.

Lemma raising_demo_ends_main_witness :
  let reg := registry (S := narrow_default) false 300 in
  let first := in_sequence [overflowDemo (S := narrow_default) 300]
                 initial_state in
  let second := basicDemo (S := narrow_default) (state_of first) in
  (registered reg ["overflow"] [overflowDemo (S := narrow_default) 300]
   /\ od_get "basic" reg = Some (basicDemo (S := narrow_default))
   /\ first = (Return tt, trace_of first, state_of first)
   /\ second = (Raise (FXexn FXoverflowError), trace_of second,
                state_of second))
  /\ run_demos reg (mkNamespace false ["overflow"; "basic"; "speed"])
       initial_state
     = (Raise (FXexn FXoverflowError), trace_of first ++ trace_of second,
        state_of second).
Proof.
  intros reg first second.
  assert (Hreg : registered reg ["overflow"]
                   [overflowDemo (S := narrow_default) 300])
    by (repeat constructor).
  assert (H1 : first = (Return tt, trace_of first, state_of first))
    by (vm_compute; reflexivity).
  assert (H2 : second = (Raise (FXexn FXoverflowError), trace_of second,
                         state_of second))
    by (vm_compute; reflexivity).
  split; [exact (conj Hreg (conj eq_refl (conj H1 H2))) |].
  exact (raising_demo_ends_main reg ["overflow"] ["speed"] _ "basic"
           (basicDemo (S := narrow_default)) initial_state (state_of first)
           (state_of second) (trace_of first) (trace_of second)
           (FXexn FXoverflowError) Hreg eq_refl H1 H2).
Defined.

(** ** What [speedDemo] times *)

Section Speed.
Context {S : Solvers}.

Lemma logistic_step_inv (lmb one x y : Number) (s s' : EngineState)
  (t : list event) :
  logistic_step lmb one x s = (Return y, t, s') ->
  s' = s /\ length t = 3%nat /\ forallb is_binary t = true.
Proof.
  unfold logistic_step. intros H.
  inv_bind H lx Hlx. inv_bind H d Hd. inv_call H.
  repeat split.
Qed.

Lemma iterate_logistic_inv (n : nat) (lmb one x y : Number)
  (s s' : EngineState) (t : list event) :
  iterate n (logistic_step lmb one) x s = (Return y, t, s') ->
  s' = s /\ length t = (3 * n)%nat /\ forallb is_binary t = true.
Proof.
  revert x s t. induction n as [| n IH]; intros x s t; cbn [iterate].
  - intros H. apply ret_inv in H as (_ & -> & ->). repeat split.
  - intros H.
    apply bind_return_inv in H as (x' & t1 & t2 & s1 & Hs & H & ->).
    apply logistic_step_inv in Hs as (-> & Hl & Hb).
    apply IH in H as (-> & Hl2 & Hb2).
    repeat split.
    + rewrite length_app. lia.
    + rewrite forallb_app, Hb, Hb2. reflexivity.
Qed.

Lemma py_range_length (count : Z) :
  length (py_range 0 count 1) = Z.to_nat count.
Proof.
  unfold py_range. rewrite length_map, length_seq.
  f_equal. rewrite Z.div_1_r. lia.
Qed.

Lemma for_each_constant_trace {A : Type} (l : list A) (body : A -> M unit)
  (e : event) (s s' : EngineState) (t : list event) :
  (forall v s1 s2 t1, body v s1 = (Return tt, t1, s2) ->
                      t1 = [e] /\ s2 = s1) ->
  for_each l body s = (Return tt, t, s') ->
  t = repeat e (length l) /\ s' = s.
Proof.
  intros Hb. revert s t. induction l as [| v l IH]; intros s t; cbn [for_each].
  - intros H. apply ret_inv in H as (_ & -> & ->). auto.
  - intros H.
    apply bind_return_inv in H as ([] & t1 & t2 & s1 & Hv & H & ->).
    apply Hb in Hv as [-> ->].
    apply IH in H as [-> ->]. auto.
Qed.

End Speed.

(** The operation count that [speedDemo] prints for its arithmetic test
    is the number of engine operations it times: between the two clock
    readings there are [3 * count] binary operations and nothing else. *)
Theorem speedDemo_times_three_operations_per_turn {S : Solvers}
  (res count : Z) (s s' : EngineState) (t : list event) :
  speedDemo_arith (res, count) s = (Return tt, t, s') ->
  exists (fam : Family) (timed : list event),
    t = [EvFamily res None;
         EvNum (VLit (VFloat 1 (-1))) fam;
         EvNum (VLit (VFloat 8106479329266893 (-51))) fam;
         EvNum (VLit (VFloat 1 0)) fam;
         EvClock]
        ++ timed
        ++ [EvClock;
            EvPrint [PInt (count * 3); PStr " "; PInt res;
                     PStr "-bit arithmetic operations in "; PTiming;
                     PStr "s ~ "; PTiming; PStr " FLOPS"]]
    /\ forallb is_binary timed = true
    /\ length timed = (3 * Z.to_nat count)%nat
    /\ (0 <= count -> Z.of_nat (length timed) = count * 3).
Proof.
  unfold speedDemo_arith, print. intros H.
  inv_bind H fam Hfam. inv_bind H x Hx. inv_bind H lmb Hlmb.
  inv_bind H one Hone. inv_bind H u1 Hu1.
  apply bind_return_inv in H as (y & timed & ? & ? & Hit & H & ->).
  apply iterate_logistic_inv in Hit as (-> & Hl & Hb).
  inv_bind H u2 Hu2. inv_call H.
  exists fam, timed. repeat split; [exact Hb | exact Hl | lia].
Qed.

Lemma speedDemo_times_three_operations_per_turn_witness :
  let run := speedDemo_arith (S := Solver.solvers) (16, 100)
               initial_state in
  run = (Return tt, trace_of run, state_of run)
  /\ exists (fam : Family) (timed : list event),
       trace_of run
       = [EvFamily 16 None;
          EvNum (VLit (VFloat 1 (-1))) fam;
          EvNum (VLit (VFloat 8106479329266893 (-51))) fam;
          EvNum (VLit (VFloat 1 0)) fam;
          EvClock]
         ++ timed
         ++ [EvClock;
             EvPrint [PInt (100 * 3); PStr " "; PInt 16;
                      PStr "-bit arithmetic operations in "; PTiming;
                      PStr "s ~ "; PTiming; PStr " FLOPS"]]
       /\ forallb is_binary timed = true
       /\ length timed = (3 * Z.to_nat 100)%nat
       /\ (0 <= 100 -> Z.of_nat (length timed) = 100 * 3).
Proof.
  intros run.
  assert (H : run = (Return tt, trace_of run, state_of run))
    by (vm_compute; reflexivity).
  split; [exact H |].
  exact (speedDemo_times_three_operations_per_turn (S := Solver.solvers)
           16 100 initial_state (state_of run) (trace_of run) H).
Defined.

(** The square-root test of [speedDemo] times [count] square roots, all
    of the one Number 2 built under a family of 4 integer bits. *)
Theorem speedDemo_times_count_square_roots {S : Solvers}
  (res count : Z) (s s' : EngineState) (t : list event) :
  speedDemo_sqrt (res, count) s = (Return tt, t, s') ->
  exists (fam : Family) (x : Number),
    FXnum (VLit (VInt 2)) fam = Ok x
    /\ resolution fam = res
    /\ integerBits fam = 4
    /\ t = [EvFamily res (Some 4); EvNum (VLit (VInt 2)) fam; EvClock]
           ++ repeat (EvUnary Sqrt x) (Z.to_nat count)
           ++ [EvClock;
               EvPrint [PInt count; PStr " "; PInt res;
                        PStr "-bit square-roots in "; PTiming;
                        PStr "s ~ "; PTiming; PStr "/ms"]].
Proof.
  unfold speedDemo_sqrt, print. intros H.
  inv_bind H fam Hfam. inv_bind H x Hx. inv_bind H u1 Hu1.
  apply bind_return_inv in H as ([] & timed & ? & ? & Hloop & H & ->).
  apply (for_each_constant_trace _ _ (EvUnary Sqrt x)) in Hloop
    as [-> ->].
  - inv_bind H u2 Hu2. inv_call H.
    exists fam, x. rewrite py_range_length.
    injection Hfam as <- _. repeat split; first [exact Hx | reflexivity].
  - intros v s1 s2 t1 Hb.
    apply bind_return_inv in Hb as (y & ? & ? & ? & Hy & Hr & ->).
    apply call_unary_inv in Hy as [Hy ->].
    apply unary_sqrt_state in Hy as ->.
    apply ret_inv in Hr as (_ & -> & ->). auto.
Qed.

Lemma speedDemo_times_count_square_roots_witness :
  let run := speedDemo_sqrt (S := Solver.solvers) (8, 50) initial_state in
  run = (Return tt, trace_of run, state_of run)
  /\ exists (fam : Family) (x : Number),
       FXnum (VLit (VInt 2)) fam = Ok x
       /\ resolution fam = 8
       /\ integerBits fam = 4
       /\ trace_of run
          = [EvFamily 8 (Some 4); EvNum (VLit (VInt 2)) fam; EvClock]
            ++ repeat (EvUnary Sqrt x) (Z.to_nat 50)
            ++ [EvClock;
                EvPrint [PInt 50; PStr " "; PInt 8;
                         PStr "-bit square-roots in "; PTiming;
                         PStr "s ~ "; PTiming; PStr "/ms"]].
Proof.
  intros run.
  assert (H : run = (Return tt, trace_of run, state_of run))
    by (vm_compute; reflexivity).
  split; [exact H |].
  exact (speedDemo_times_count_square_roots (S := Solver.solvers)
           8 50 initial_state (state_of run) (trace_of run) H).
Defined.

(** ** What [overflowDemo] reports *)

Section OverflowReports.
Context {S : Solvers}.

Lemma overflow_points_app (t1 t2 : list event) :
  overflow_points (t1 ++ t2) = overflow_points t1 ++ overflow_points t2.
Proof.
  induction t1 as [| e t1 IH]; [reflexivity |].
  destruct e; cbn [app overflow_points]; try exact IH.
  repeat match goal with
         | |- context [match ?x with _ => _ end] =>
             destruct x; cbn [app]; try exact IH
         end.
  now rewrite IH.
Qed.

Lemma overflow_points_turns (xs : list Number) :
  overflow_points (turns_trace xs) = [].
Proof. induction xs as [| x xs IH]; [reflexivity | exact IH]. Qed.

Lemma scale_float_zero (res : Z) : scale_literal res (VFloat 0 0) = 0.
Proof.
  simpl. destruct (0 <=? 0 + res); [reflexivity |]. now destruct (2 ^ _).
Qed.

(** A returning loop went through some turns and then caught the
    overflow at the input those turns led to. *)
Lemma overflow_loop_returns_shape (fuel : nat) (intsize : Z) (x : Number)
  (s s' : EngineState) (t : list event) :
  overflow_loop fuel intsize x s = (Return tt, t, s') ->
  exists (xs : list Number) (xn : Number),
    (length xs < fuel)%nat
    /\ family xn = family x
    /\ scaledValue xn
       = scaledValue x
         + Z.of_nat (length xs) * scale_literal (resolution (family x)) step
    /\ t = turns_trace xs
           ++ [EvUnary Exp xn; EvRaised FXoverflowError;
               EvPrint (overflow_report intsize xn)].
Proof.
  revert x s t. induction fuel as [| fuel IH]; intros x s t.
  - discriminate.
  - destruct (unary Exp x s) as [[ex | e] s1] eqn:Hex.
    + destruct (binary Add x (OLit step)) as [x' | e] eqn:Ha.
      * rewrite (overflow_loop_next _ _ _ _ _ _ _ Hex Ha).
        destruct (overflow_loop fuel intsize x' s1) as [[r t1] s2] eqn:Hl.
        unfold outcome_of, trace_of, state_of; cbn [fst snd].
        intros [= -> <- ->].
        destruct (IH _ _ _ Hl) as (xs & xn & Hlen & Hf & Hv & ->).
        assert (Hn : next_input (x, s) = Some (x', s1))
          by (apply next_input_Some; eauto).
        apply next_input_value in Hn as [Hf' Hv'].
        rewrite Hf' in Hv.
        set (c := scale_literal (resolution (family x)) step) in *.
        exists (x :: xs), xn.
        split; [simpl; lia |]. split; [congruence |].
        split; [| reflexivity].
        change (length (x :: xs)) with (Datatypes.S (length xs)).
        rewrite Hv, Hv', Nat2Z.inj_succ, Z.mul_succ_l. lia.
      * rewrite (overflow_loop_add_raises _ _ _ _ _ _ _ Hex Ha).
        discriminate.
    + destruct (FXerror_eqb e FXoverflowError) eqn:He.
      * assert (e = FXoverflowError) as -> by now destruct e.
        rewrite (overflow_loop_caught _ _ _ _ _ Hex).
        intros [= <- <-].
        exists [], x. repeat split; simpl; lia.
      * rewrite (overflow_loop_exp_raises _ _ _ _ _ _ Hex);
          [discriminate | now destruct e].
Qed.

Lemma overflowDemo_step_reports (fuel : nat) (res intsize : Z)
  (s s' : EngineState) (t : list event) :
  overflowDemo_step fuel res intsize s = (Return tt, t, s') ->
  exists n : nat,
    (n < fuel)%nat
    /\ overflow_points t = [(intsize, Z.of_nat n * scale_literal res step)].
Proof.
  unfold overflowDemo_step. intros H.
  inv_bind H fam Hfam. inv_bind H start Hstart.
  apply overflow_loop_returns_shape in H
    as (xs & xn & Hlen & Hf & Hv & ->).
  apply checked_inv in Hstart as [-> _]. cbn [family scaledValue] in Hv.
  injection Hfam as <- _. cbn [resolution scale_value] in Hv.
  rewrite scale_float_zero in Hv.
  exists (length xs). split; [exact Hlen |].
  cbn [app overflow_points].
  rewrite overflow_points_app, overflow_points_turns.
  cbn [app overflow_points overflow_report]. rewrite Hv. reflexivity.
Qed.

End OverflowReports.

(** Whatever the exponential of the engine does, an overflow demo that
    returns has reported one overflow point for each of the widths 4, 8,
    16 and 32, in this order, and each point is a whole number of steps
    of 0.1 away from 0, fewer steps than the loop had fuel. *)
Theorem overflowDemo_reports_one_point_per_width {S : Solvers} (fuel : nat)
  (s s' : EngineState) (t : list event) :
  overflowDemo fuel s = (Return tt, t, s') ->
  exists n4 n8 n16 n32 : nat,
    (n4 < fuel /\ n8 < fuel /\ n16 < fuel /\ n32 < fuel)%nat
    /\ overflow_points t
       = [(4, Z.of_nat n4 * scale_literal 20 step);
          (8, Z.of_nat n8 * scale_literal 20 step);
          (16, Z.of_nat n16 * scale_literal 20 step);
          (32, Z.of_nat n32 * scale_literal 20 step)].
Proof.
  unfold overflowDemo, print. intros H.
  inv_bind H u1 Hu1.
  apply bind_return_inv in H as ([] & t1 & ? & ? & Hloop & H & ->).
  inv_call H.
  apply for_each_return_inv in Hloop as (ts & Hts & ->).
  inversion Hts as [| w4 t4 l4 ts4 (a4 & b4 & H4) Hts4]; subst.
  inversion Hts4 as [| w8 t8 l8 ts8 (a8 & b8 & H8) Hts8]; subst.
  inversion Hts8 as [| w16 t16 l16 ts16 (a16 & b16 & H16) Hts16]; subst.
  inversion Hts16 as [| w32 t32 l32 ts32 (a32 & b32 & H32) Hts32]; subst.
  inversion Hts32; subst.
  apply overflowDemo_step_reports in H4 as (n4 & Hn4 & Hp4).
  apply overflowDemo_step_reports in H8 as (n8 & Hn8 & Hp8).
  apply overflowDemo_step_reports in H16 as (n16 & Hn16 & Hp16).
  apply overflowDemo_step_reports in H32 as (n32 & Hn32 & Hp32).
  exists n4, n8, n16, n32. split; [auto |].
  cbn [concat app overflow_points].
  rewrite !overflow_points_app, Hp4, Hp8, Hp16, Hp32. reflexivity.
Qed.

Lemma overflowDemo_reports_one_point_per_width_witness :
  let run := overflowDemo (S := Solver.solvers) 300 initial_state in
  run = (Return tt, trace_of run, state_of run)
  /\ exists n4 n8 n16 n32 : nat,
       (n4 < 300 /\ n8 < 300 /\ n16 < 300 /\ n32 < 300)%nat
       /\ overflow_points (trace_of run)
          = [(4, Z.of_nat n4 * scale_literal 20 step);
             (8, Z.of_nat n8 * scale_literal 20 step);
             (16, Z.of_nat n16 * scale_literal 20 step);
             (32, Z.of_nat n32 * scale_literal 20 step)].
Proof.
  intros run.
  assert (H : run = (Return tt, trace_of run, state_of run))
    by (vm_compute; reflexivity).
  split; [exact H |].
  exact (overflowDemo_reports_one_point_per_width (S := Solver.solvers)
           300 initial_state (state_of run) (trace_of run) H).
Defined.

(** ** What the plotting demos draw *)

Lemma collect_return_inv {A B : Type} (l : list A) (body : A -> M B)
  (s s' : EngineState) (bs : list B) (t : list event) :
  collect l body s = (Return bs, t, s') ->
  exists rs : list (B * list event),
    Forall2 (fun v r => exists s1 s2,
               body v s1 = (Return (fst r), snd r, s2)) l rs
    /\ bs = map fst rs
    /\ t = concat (map snd rs).
Proof.
  revert s s' bs t.
  induction l as [| v l IH]; intros s s' bs t; cbn [collect].
  - intros H. apply ret_inv in H as (-> & -> & _).
    exists []. repeat split. constructor.
  - intros H.
    apply bind_return_inv in H as (b & t1 & ? & s1 & Hb & H & ->).
    apply bind_return_inv in H as (bs' & t2 & ? & s2 & Hl & H & ->).
    apply ret_inv in H as (-> & -> & _).
    apply IH in Hl as (rs & Hrs & -> & ->).
    exists ((b, t1) :: rs). repeat split.
    + constructor; [cbn [fst snd]; eauto | exact Hrs].
    + cbn [map concat snd]. now rewrite app_nil_r.
Qed.

Lemma plots_app (t1 t2 : list event) :
  plots (t1 ++ t2) = plots t1 ++ plots t2.
Proof.
  induction t1 as [| e t1 IH]; [reflexivity |].
  destruct e; cbn [app plots]; now rewrite IH.
Qed.

Lemma plots_concat_nil (ts : list (list event)) :
  Forall (fun t => plots t = []) ts -> plots (concat ts) = [].
Proof.
  induction 1 as [| t ts Ht _ IH]; [reflexivity |].
  cbn [concat]. now rewrite plots_app, Ht, IH.
Qed.

Lemma Forall2_right {A B : Type} (R : A -> B -> Prop) (P : B -> Prop)
  (l : list A) (rs : list B) :
  Forall2 R l rs -> (forall v r, R v r -> P r) -> Forall P rs.
Proof.
  intros H HP. induction H as [| v r l rs Hr _ IH]; constructor; eauto.
Qed.

Lemma Forall2_map_eq {A B : Type} (R : A -> B -> Prop) (f : B -> A)
  (l : list A) (rs : list B) :
  Forall2 R l rs -> (forall v r, R v r -> f r = v) -> map f rs = l.
Proof.
  intros H Hf. induction H as [| v r l rs Hr _ IH]; [reflexivity |].
  cbn [map]. now rewrite (Hf _ _ Hr), IH.
Qed.

Section Plots.
Context {S : Solvers}.

Lemma unary_atan_state (x y : Number) (s s' : EngineState) :
  unary Atan x s = (Ok y, s') -> s' = s.
Proof. simpl. now intros [= _ <-]. Qed.

Lemma piPlot_point_inv (res : Z) (s s' : EngineState) (r : Z * Number)
  (t : list event) :
  piPlot_point res s = (Return r, t, s') ->
  fst r = res
  /\ resolution (family (snd r)) = res
  /\ plots t = []
  /\ exists (fam : Family) (one a : Number),
       FXfamily res None s = (fam, s')
       /\ FXnum (VLit (VInt 1)) fam = Ok one
       /\ unary Atan one s' = (Ok a, s')
       /\ rbinary Mul (VInt 4) a = Ok (snd r).
Proof.
  unfold piPlot_point. intros H.
  inv_bind H fam Hfam. inv_bind H one Hone. inv_bind H a Ha.
  inv_bind H val Hval. apply ret_inv in H as (-> & -> & ->).
  pose proof (unary_atan_state _ _ _ _ Ha) as ->.
  pose proof (FXnum_family _ _ _ Hone) as Hf1.
  pose proof (unary_family _ _ _ _ _ Ha) as Hf2.
  pose proof (rbinary_family _ _ _ _ Hval) as Hf3.
  split; [reflexivity |]. split.
  - cbn [snd]. rewrite Hf3, Hf2, Hf1.
    now injection Hfam as <- _.
  - split; [reflexivity |]. exists fam, one, a.
    exact (conj Hfam (conj Hone (conj Ha Hval))).
Qed.

Lemma lostbits_inv (x x_acc y : Number) (s s' : EngineState)
  (t : list event) :
  lostbits x x_acc s = (Return y, t, s') ->
  family y = family x_acc /\ plots t = [].
Proof.
  intros H. split.
  - destruct (lostbits_within x x_acc s) as [_ Hq].
    apply Hq. unfold outcome_of. now rewrite H.
  - revert H. unfold lostbits. intros H.
    inv_bind H xa Hxa. inv_bind H eps Heps. inv_bind H a Ha.
    inv_bind H l Hl. inv_bind H ln2 Hln2. inv_bind H q Hq.
    inv_call H. reflexivity.
Qed.

Lemma piAccuracy_point_inv (bits : Z) (s s' : EngineState)
  (r : Z * Number * Number) (t : list event) :
  piAccuracy_point bits s = (Return r, t, s') ->
  fst (fst r) = bits
  /\ resolution (family (snd (fst r))) = bits + 40
  /\ resolution (family (snd r)) = bits + 40
  /\ plots t = [].
Proof.
  unfold piAccuracy_point. intros H.
  inv_bind H fam_acc Hfa. inv_bind H fam Hfam.
  inv_bind H pi_true Hpt. inv_bind H pi_family Hpf.
  inv_bind H one Hone. inv_bind H a Ha. inv_bind H atan Hatan.
  apply bind_return_inv in H as (l1 & t1 & ? & ? & Hl1 & H & ->).
  apply bind_return_inv in H as (l2 & t2 & ? & ? & Hl2 & H & ->).
  apply ret_inv in H as (-> & -> & _).
  apply lostbits_inv in Hl1 as [Hf1 Hp1].
  apply lostbits_inv in Hl2 as [Hf2 Hp2].
  apply constant_family in Hpt. injection Hfa as <- _.
  cbn [fst snd]. rewrite Hf1, Hf2, Hpt.
  repeat split.
  cbn [app plots]. now rewrite !plots_app, Hp1, Hp2.
Qed.

End Plots.

(** A [piPlot] that returns has drawn two curves and then shown them.
    It first built a 65-bit family and asked it for its constant [pi]; the
    dashed curve goes through that Number at the two ends 8 and 25.  The
    solid curve goes through one point for each resolution from 8 to 25,
    in this order; the value at a resolution is 4 times the arctangent of
    the Number 1, computed under a family built from that resolution. *)
Theorem piPlot_draws_one_point_per_resolution {S : Solvers}
  (s s' : EngineState) (t : list event) :
  piPlot s = (Return tt, t, s') ->
  exists (fam_true : Family) (s1 s2 : EngineState) (pi_true : Number)
         (pipoints : list (Z * Number)) (t0 : list event),
    FXfamily 65 None s = (fam_true, s1)
    /\ constant Cpi fam_true s1 = (Ok pi_true, s2)
    /\ t = [EvFamily 65 None; EvConst Cpi fam_true]
           ++ t0
           ++ [EvPlot "--" [(8, pi_true); (25, pi_true)];
               EvPlot "-" pipoints; EvShow]
    /\ plots t0 = []
    /\ resolution (family pi_true) = 65
    /\ map fst pipoints = py_range 8 26 1
    /\ Forall
         (fun p =>
            resolution (family (snd p)) = fst p
            /\ exists (sa sb : EngineState) (fam : Family) (one a : Number),
                 FXfamily (fst p) None sa = (fam, sb)
                 /\ FXnum (VLit (VInt 1)) fam = Ok one
                 /\ unary Atan one sb = (Ok a, sb)
                 /\ rbinary Mul (VInt 4) a = Ok (snd p))
         pipoints.
Proof.
  unfold piPlot. intros H.
  inv_bind H fam_true Hft. inv_bind H pi_true Hpt.
  apply bind_return_inv in H as (pipoints & t1 & ? & ? & Hc & H & ->).
  apply bind_return_inv in H as ([] & t2 & ? & ? & Hp & H & ->).
  inv_call H.
  cbn [for_each] in Hp.
  inv_bind Hp u1 Hu1. inv_bind Hp u2 Hu2.
  apply ret_inv in Hp as (_ & -> & _).
  apply collect_return_inv in Hc as (rs & Hrs & -> & ->).
  pose proof (constant_family _ _ _ _ _ Hpt) as Hfam.
  exists fam_true. do 2 eexists.
  exists pi_true, (map fst rs), (concat (map snd rs)).
  split; [exact Hft |]. split; [exact Hpt |].
  split; [cbn [app]; reflexivity |].
  split.
  { apply plots_concat_nil, Forall_map.
    eapply Forall2_right; [exact Hrs |].
    intros v r (sa & sb & Hr).
    now apply piPlot_point_inv in Hr as (_ & _ & Hr & _). }
  split; [rewrite Hfam; now injection Hft as <- _ |].
  split.
  { rewrite map_map. eapply Forall2_map_eq; [exact Hrs |].
    intros v r (sa & sb & Hr).
    now apply piPlot_point_inv in Hr as (Hv & _). }
  apply Forall_map. eapply Forall2_right; [exact Hrs |].
  intros v r (sa & sb & Hr).
  apply piPlot_point_inv in Hr as (Hv & Hf & _ & fam & one & a & Hr).
  cbn [fst snd]. rewrite Hv. split; [exact Hf |].
  exists sa, sb, fam, one, a. exact Hr.
Qed.

Lemma piPlot_draws_one_point_per_resolution_witness :
  let run := piPlot (S := Solver.solvers) initial_state in
  run = (Return tt, trace_of run, state_of run)
  /\ exists (fam_true : Family) (s1 s2 : EngineState) (pi_true : Number)
            (pipoints : list (Z * Number)) (t0 : list event),
       FXfamily (S := Solver.solvers) 65 None initial_state
       = (fam_true, s1)
       /\ constant (S := Solver.solvers) Cpi fam_true s1 = (Ok pi_true, s2)
       /\ trace_of run
          = [EvFamily 65 None; EvConst Cpi fam_true]
            ++ t0
            ++ [EvPlot "--" [(8, pi_true); (25, pi_true)];
                EvPlot "-" pipoints; EvShow]
       /\ plots t0 = []
       /\ resolution (family pi_true) = 65
       /\ map fst pipoints = py_range 8 26 1.
Proof.
  intros run.
  assert (H : run = (Return tt, trace_of run, state_of run))
    by (vm_compute; reflexivity).
  split; [exact H |].
  destruct (piPlot_draws_one_point_per_resolution (S := Solver.solvers)
              initial_state (state_of run) (trace_of run) H)
    as (fam_true & s1 & s2 & pi_true & pipoints & t0
        & H1 & H2 & H3 & H4 & H5 & H6 & _).
  exists fam_true, s1, s2, pi_true, pipoints, t0. auto 10.
Defined.

Lemma draws_nothing_plots (t : list event) :
  Forall draws_nothing t -> plots t = [].
Proof.
  induction 1 as [| e t He _ IH]; [reflexivity |].
  destruct e; cbn [plots]; try exact IH. destruct He.
Qed.

Section AccuracyPlot.
Context {S : Solvers}.

Lemma lostbits_draws_nothing (x x_acc : Number) :
  holds draws_nothing (fun _ => True) (lostbits x x_acc).
Proof. unfold lostbits. repeat hstep. hlast. Qed.

Lemma piAccuracy_sweep_draws_nothing (l : list Z) :
  holds draws_nothing (fun _ => True) (collect l piAccuracy_point).
Proof.
  apply holds_collect. intros bits _.
  unfold piAccuracy_point. repeat hstep.
  eapply holds_bind; [apply lostbits_draws_nothing | intros l1 _].
  eapply holds_bind; [apply lostbits_draws_nothing | intros l2 _].
  now apply holds_ret.
Qed.

End AccuracyPlot.

(** [piAccuracyPlot] draws nothing unless its whole sweep went through.
    When it returns it has drawn two curves over the same abscissas, the
    resolutions 4, 8, ... below 500 in this order, and every loss on
    either curve is a Number of the accurate family of its point, the one
    with 40 bits more than the abscissa. *)
Theorem piAccuracyPlot_draws_two_curves {S : Solvers} (s : EngineState) :
  let run := piAccuracyPlot s in
  (outcome_of run <> Return tt -> plots (trace_of run) = [])
  /\ (outcome_of run = Return tt ->
      exists losses : list (Z * Number * Number),
        plots (trace_of run)
        = [("$4 tan^{-1} 1$",
            map (fun '(bits, l1, _) => (bits, l1)) losses);
           ("$\pi_{family}$",
            map (fun '(bits, _, l2) => (bits, l2)) losses)]
        /\ map (fun r => fst (fst r)) losses = py_range 4 500 4
        /\ Forall (fun r =>
                     resolution (family (snd (fst r))) = fst (fst r) + 40
                     /\ resolution (family (snd r)) = fst (fst r) + 40)
                  losses).
Proof.
  intros run. subst run. unfold piAccuracyPlot.
  destruct (piAccuracy_sweep_draws_nothing (py_range 4 500 4) s)
    as [Hnone _].
  destruct (collect (py_range 4 500 4) piAccuracy_point s)
    as [[[losses | e |] t1] s1] eqn:Hc;
    unfold trace_of in Hnone; cbn [fst snd] in Hnone.
  - rewrite (bind_return _ _ _ _ _ _ Hc).
    unfold bind, emit, outcome_of, trace_of; cbn [fst snd app].
    split; [intros Hne; now contradiction Hne |]. intros _.
    apply collect_return_inv in Hc as (rs & Hrs & -> & ->).
    exists (map fst rs). repeat split.
    + rewrite plots_app, (draws_nothing_plots _ Hnone). reflexivity.
    + rewrite map_map. eapply Forall2_map_eq; [exact Hrs |].
      intros v r (s2 & s3 & Hr).
      now apply piAccuracy_point_inv in Hr as (Hv & _).
    + apply Forall_map. eapply Forall2_right; [exact Hrs |].
      intros v r (s2 & s3 & Hr).
      apply piAccuracy_point_inv in Hr as (Hv & H1 & H2 & _).
      rewrite Hv. auto.
  - rewrite (bind_raise _ _ _ _ _ _ Hc).
    split; [intros _; now apply draws_nothing_plots | discriminate].
  - rewrite (bind_out_of_fuel _ _ _ _ _ Hc).
    split; [intros _; now apply draws_nothing_plots | discriminate].
Qed.

(** ** What the demos without a plot ask of the engine *)

Section PlainDemos.
Context {S : Solvers}.

Lemma basicDemo_plain : holds plain_entry_point (fun _ => True) basicDemo.
Proof.
  apply holds_for_each. intros resolution _.
  unfold basicDemo_step, print. repeat hstep. hlast.
Qed.

Lemma overflow_loop_plain (fuel : nat) (intsize : Z) (x : Number) :
  holds plain_entry_point (fun _ => True) (overflow_loop fuel intsize x).
Proof.
  revert x. induction fuel as [| fuel IH]; intros x; simpl.
  - apply holds_out_of_fuel.
  - eapply holds_bind.
    + apply holds_try. call_holds.
    + intros [ex |] _; [| unfold print; hlast].
      hstep. apply IH.
Qed.

Lemma overflowDemo_plain (fuel : nat) :
  holds plain_entry_point (fun _ => True) (overflowDemo fuel).
Proof.
  unfold overflowDemo, print. hstep.
  eapply holds_bind; [| intros ? ?; hlast].
  apply holds_for_each. intros intsize _.
  unfold overflowDemo_step. repeat hstep.
  apply overflow_loop_plain.
Qed.

Lemma speedDemo_plain : holds plain_entry_point (fun _ => True) speedDemo.
Proof.
  unfold speedDemo, print. hstep.
  eapply holds_bind.
  - apply holds_for_each. intros [res count] _.
    unfold speedDemo_arith, print. repeat hstep.
    eapply holds_bind.
    + apply (holds_iterate _ (fun _ => True)); [| exact I].
      intros y _. unfold logistic_step. repeat hstep. hlast.
    + intros ? ?. hstep. hlast.
  - intros ? ?.
    apply holds_for_each. intros [res count] _.
    unfold speedDemo_sqrt, print. repeat hstep.
    eapply holds_bind.
    + apply holds_for_each. intros i _. hstep. now apply holds_ret.
    + intros ? ?. hstep. hlast.
Qed.

End PlainDemos.

(** Without matplotlib, whichever demos are selected, [main] asks the
    engine only for square roots, exponentials, sums, differences,
    products and the constant [exp1]: it never divides, never takes a
    logarithm or an arctangent, never asks for [pi] or [log2], and draws
    nothing. *)
Theorem plain_demos_never_divide_nor_take_logarithms {S : Solvers}
  (fuel : nat) (args : Namespace) (s : EngineState) :
  Forall plain_entry_point (trace_of (main false fuel args s)).
Proof.
  apply run_demos_holds. intros d Hd.
  rewrite registry_demos in Hd. simpl in Hd.
  destruct Hd as [<- | [<- | [<- | []]]].
  - apply basicDemo_plain.
  - apply overflowDemo_plain.
  - apply speedDemo_plain.
Qed.

(** ** Ranges and ordered dictionaries *)

(** [range(start, stop, step)] with a positive step holds just the values
    [start + step * i] below [stop], for [i = 0, 1, ...], in this order. *)
Theorem py_range_holds_the_steps_below_stop (start stop step : Z) :
  0 < step ->
  (forall v : Z,
     In v (py_range start stop step)
     <-> exists i : Z, 0 <= i /\ v = start + step * i /\ v < stop)
  /\ (forall i : nat,
        (i < length (py_range start stop step))%nat ->
        nth_error (py_range start stop step) i
        = Some (start + step * Z.of_nat i)).
Proof.
  intros Hstep. unfold py_range.
  set (q := (stop - start + step - 1) / step).
  assert (Hq : forall k : Z, 0 <= k -> (k < q <-> start + step * k < stop)).
  { intros k Hk. unfold q. split.
    - intros Hlt.
      assert (Hle : k + 1 <= (stop - start + step - 1) / step) by lia.
      pose proof (Z.mul_div_le (stop - start + step - 1) step Hstep).
      nia.
    - intros Hlt.
      assert (Hle : k + 1 <= (stop - start + step - 1) / step);
        [| lia].
      apply Z.div_le_lower_bound; [exact Hstep | nia]. }
  split.
  - intros v. rewrite in_map_iff. split.
    + intros (k & <- & Hk). apply in_seq in Hk.
      exists (Z.of_nat k). repeat split; [lia |].
      apply Hq; lia.
    + intros (i & Hi & -> & Hlt).
      exists (Z.to_nat i). split; [now rewrite Z2Nat.id |].
      apply in_seq. apply Hq in Hlt; lia.
  - intros i. rewrite length_map, length_seq. intros Hi.
    rewrite nth_error_map, nth_error_seq.
    destruct (Nat.ltb_spec i (Z.to_nat q)); [reflexivity | lia].
Qed.

Lemma py_range_holds_the_steps_below_stop_witness :
  0 < 4
  /\ (In 496 (py_range 4 500 4)
      <-> exists i : Z, 0 <= i /\ 496 = 4 + 4 * i /\ 496 < 500).
Proof.
  split; [reflexivity |].
  exact (proj1 (py_range_holds_the_steps_below_stop 4 500 4 eq_refl) 496).
Defined.

(** [d[k] = v] on an ordered dictionary: [d[k]] then gives [v], every
    other key gives what it gave before, and the keys keep their order,
    a new key going to the end. *)
Theorem od_set_then_get {V : Type} (k : string) (v : V)
  (d : list (string * V)) :
  od_get k (od_set k v d) = Some v
  /\ (forall k' : string, k' <> k -> od_get k' (od_set k v d) = od_get k' d)
  /\ od_keys (od_set k v d)
     = match od_get k d with
       | Some _ => od_keys d
       | None => od_keys d ++ [k]
       end.
Proof.
  induction d as [| [k0 v0] d (IH1 & IH2 & IH3)]; cbn [od_set od_get od_keys map].
  - rewrite String.eqb_refl. repeat split.
    intros k' Hne. now apply String.eqb_neq in Hne as ->.
  - destruct (String.eqb_spec k k0) as [-> | Hne];
      cbn [od_get od_keys map fst].
    + rewrite String.eqb_refl. repeat split.
      intros k' Hk'. now apply String.eqb_neq in Hk' as ->.
    + apply String.eqb_neq in Hne as Hb. rewrite Hb.
      split; [exact IH1 |]. split.
      * intros k' Hk'. destruct (String.eqb k' k0); [reflexivity |].
        now apply IH2.
      * fold (od_keys (od_set k v d)). rewrite IH3.
        fold (od_keys d). now destruct (od_get k d).
Qed.

(** ** The inputs the loop of [overflowDemo] tries *)

Section LoopInputs.
Context {S : Solvers}.

Lemma stepped_0 (x : Number) : stepped x 0 = x.
Proof.
  unfold stepped. destruct x as [sv f]. cbn [scaledValue family].
  f_equal. change (Z.of_nat 0) with 0. lia.
Qed.

Lemma add_step_stepped (x x' : Number) :
  binary Add x (OLit step) = Ok x' -> x' = stepped x 1.
Proof.
  unfold binary, promote, FXnum. intros Ha.
  destruct (checked (family x) (scale_value (family x) (VLit step)))
    as [y |] eqn:Hy; cbn [rbind] in Ha; [| discriminate].
  apply checked_inv in Hy as [-> _].
  apply checked_inv in Ha as [-> _].
  unfold stepped, add_raw. cbn [scaledValue scale_value].
  f_equal. change (Z.of_nat 1) with 1. lia.
Qed.

Lemma stepped_stepped (x : Number) (i : nat) :
  stepped (stepped x 1) i = stepped x (Datatypes.S i).
Proof.
  unfold stepped. cbn [scaledValue family]. f_equal.
  rewrite Nat2Z.inj_succ. change (Z.of_nat 1) with 1. lia.
Qed.

Lemma overflow_loop_inputs (fuel : nat) (intsize : Z) (x : Number)
  (s s' : EngineState) (t : list event) :
  overflow_loop fuel intsize x s = (Return tt, t, s') ->
  exists n : nat,
    (n < fuel)%nat
    /\ t = turns_trace (map (stepped x) (seq 0 n))
           ++ [EvUnary Exp (stepped x n); EvRaised FXoverflowError;
               EvPrint (overflow_report intsize (stepped x n))].
Proof.
  revert x s t. induction fuel as [| fuel IH]; intros x s t.
  - discriminate.
  - destruct (unary Exp x s) as [[ex | e] s1] eqn:Hex.
    + destruct (binary Add x (OLit step)) as [x' | e] eqn:Ha.
      * rewrite (overflow_loop_next _ _ _ _ _ _ _ Hex Ha).
        destruct (overflow_loop fuel intsize x' s1) as [[r t1] s2] eqn:Hl.
        unfold outcome_of, trace_of, state_of; cbn [fst snd].
        intros [= -> <- ->].
        destruct (IH _ _ _ Hl) as (n & Hn & ->).
        apply add_step_stepped in Ha as ->.
        exists (Datatypes.S n). split; [lia |].
        rewrite !stepped_stepped.
        cbn [seq map turns_trace flat_map]. rewrite stepped_0.
        rewrite <- seq_shift, map_map.
        rewrite (map_ext _ _ (stepped_stepped x)). reflexivity.
      * rewrite (overflow_loop_add_raises _ _ _ _ _ _ _ Hex Ha).
        discriminate.
    + destruct (FXerror_eqb e FXoverflowError) eqn:He.
      * assert (e = FXoverflowError) as -> by now destruct e.
        rewrite (overflow_loop_caught _ _ _ _ _ Hex).
        intros [= <- <-].
        exists O. split; [lia |]. now rewrite stepped_0.
      * rewrite (overflow_loop_exp_raises _ _ _ _ _ _ Hex);
          [discriminate | now destruct e].
Qed.

End LoopInputs.

(** A loop of [overflowDemo] that returns has tried the inputs [x],
    [x + step], [x + 2 step], ... one after the other, none left out and
    none twice: the exponential returned at each of the first [n], each
    followed by [x += step], it overflowed at [x + n step], and that input
    is the one reported. *)
Theorem overflow_loop_tries_every_step {S : Solvers} (fuel : nat)
  (intsize : Z) (x : Number) (s s' : EngineState) (t : list event) :
  overflow_loop fuel intsize x s = (Return tt, t, s') ->
  exists n : nat,
    (n < fuel)%nat
    /\ t = turns_trace (map (stepped x) (seq 0 n))
           ++ [EvUnary Exp (stepped x n); EvRaised FXoverflowError;
               EvPrint
                 [PInt intsize;
                  PStr "-bit integer part: exp(x) overflows near x=";
                  PFloat (stepped x n)]].
Proof. apply overflow_loop_inputs. Qed.

Lemma overflow_loop_tries_every_step_witness :
  let x := mkNumber 0 (mkFamily 0 20 4) in
  let run := overflow_loop (S := Solver.solvers) 300 4 x initial_state in
  run = (Return tt, trace_of run, state_of run)
  /\ exists n : nat,
       (n < 300)%nat
       /\ trace_of run
          = turns_trace (map (stepped x) (seq 0 n))
            ++ [EvUnary Exp (stepped x n); EvRaised FXoverflowError;
                EvPrint
                  [PInt 4;
                   PStr "-bit integer part: exp(x) overflows near x=";
                   PFloat (stepped x n)]].
Proof.
  intros x run.
  assert (H : run = (Return tt, trace_of run, state_of run))
    by (vm_compute; reflexivity).
  split; [exact H |].
  exact (overflow_loop_tries_every_step (S := Solver.solvers) 300 4 x
           initial_state (state_of run) (trace_of run) H).
Defined.
